(** * snakesim.snake_driver: differential IK resolver and orientation extractor

    A shallow embedding of [snakesim/snake_driver.py] (class [SnakeDriver]).

    Numbers.  The driver computes with IEEE-754 binary64 values (Python
    [float], [numpy.float64]).  Two readings of that arithmetic are used:

    - exact arithmetic over the real numbers [R] (no rounding, no overflow);
      the resolver [update_joint_position] is modelled this way, and so is
      the orientation extractor through the instance [xreal_num], which adds
      one element [NotFinite] for what numpy returns when a square root of a
      negative number or a division by zero is evaluated (nan or an
      infinity, with a RuntimeWarning and no exception);
    - binary64 itself, through Rocq's primitive floats (instance
      [float_num]); the extractor, which is straight-line arithmetic, runs on
      it bit for bit.

    Arrays.  A one-dimensional numpy array is a [list R], a two-dimensional
    one a list of rows.

    Exceptions.  An operation that can raise returns [option], and [None]
    stands for the exception: the ValueError of numpy on arrays whose shapes
    do not agree, the IndexError of a list index out of range, the
    ZeroDivisionError of a Python division by zero. *)

From Stdlib Require Import Reals Lra Lia Psatz RNsatz List ZArith Bool.
From Stdlib Require Import ClassicalEpsilon.
From Stdlib Require PrimFloat Uint63.
Import ListNotations.

Set Implicit Arguments.

(** ** Scalars *)

Declare Scope num_scope.
Delimit Scope num_scope with num.

(** The arithmetic the orientation extractor uses, as an interface: integer
    literals, the four operations and the square root. *)
Class Num (F : Type) : Type := {
  lit : Z -> F;
  nadd : F -> F -> F;
  nsub : F -> F -> F;
  nmul : F -> F -> F;
  ndiv : F -> F -> F;
  nsqrt : F -> F
}.

Infix "+" := nadd : num_scope.
Infix "-" := nsub : num_scope.
Infix "*" := nmul : num_scope.
Infix "/" := ndiv : num_scope.

(** Exact reals with one extra element for a value that is not a finite
    real number. *)
Inductive xreal : Type :=
| Real (x : R)
| NotFinite.

Definition xlift2 (f : R -> R -> R) (a b : xreal) : xreal :=
  match a, b with
  | Real x, Real y => Real (f x y)
  | _, _ => NotFinite
  end.

(** numpy: [x / 0.0] is nan or an infinity. *)
Definition xdiv (a b : xreal) : xreal :=
  match a, b with
  | Real x, Real y => if Req_dec_T y 0 then NotFinite else Real (x / y)
  | _, _ => NotFinite
  end.

(** numpy: [np.sqrt] of a negative number is nan. *)
Definition xsqrt (a : xreal) : xreal :=
  match a with
  | Real x => if Rlt_dec x 0 then NotFinite else Real (sqrt x)
  | NotFinite => NotFinite
  end.

#[export] Instance xreal_num : Num xreal := {
  lit z := Real (IZR z);
  nadd := xlift2 Rplus;
  nsub := xlift2 Rminus;
  nmul := xlift2 Rmult;
  ndiv := xdiv;
  nsqrt := xsqrt
}.

(** binary64. *)
Definition float_of_Z (z : Z) : PrimFloat.float :=
  match z with
  | Z0 => PrimFloat.zero
  | Zpos _ => PrimFloat.of_uint63 (Uint63.of_Z z)
  | Zneg _ => PrimFloat.opp (PrimFloat.of_uint63 (Uint63.of_Z (Z.opp z)))
  end.

#[export] Instance float_num : Num PrimFloat.float := {
  lit := float_of_Z;
  nadd := PrimFloat.add;
  nsub := PrimFloat.sub;
  nmul := PrimFloat.mul;
  ndiv := PrimFloat.div;
  nsqrt := PrimFloat.sqrt
}.

(** ** The orientation extractor *)

(** A 3x3 array; field [rIJ] is the entry [r[I, J]]. *)
Record mat3 (F : Type) : Type := Mat3 {
  r00 : F; r01 : F; r02 : F;
  r10 : F; r11 : F; r12 : F;
  r20 : F; r21 : F; r22 : F
}.

Definition map_mat3 {A B : Type} (f : A -> B) (r : mat3 A) : mat3 B :=
  Mat3 (f (r00 r)) (f (r01 r)) (f (r02 r))
       (f (r10 r)) (f (r11 r)) (f (r12 r))
       (f (r20 r)) (f (r21 r)) (f (r22 r)).

(** [SnakeDriver.rotation_matrix_to_quaternion]: the result list is
    [[q_x; q_y; q_z; q_w]]. *)
Definition rotation_matrix_to_quaternion {F : Type} `{Num F} (r : mat3 F)
  : list F :=
  (let q_w := nsqrt (lit 1 + r00 r + r11 r + r22 r) / lit 2 in
   let q_x := (r21 r - r12 r) / (lit 4 * q_w) in
   let q_y := (r02 r - r20 r) / (lit 4 * q_w) in
   let q_z := (r10 r - r01 r) / (lit 4 * q_w) in
   [q_x; q_y; q_z; q_w])%num.

(** An integer matrix read in binary64. *)
Definition f64_mat3 (r : mat3 Z) : mat3 PrimFloat.float :=
  map_mat3 float_of_Z r.

(** *** Rotations and the quaternions that represent them *)

Open Scope R_scope.

Definition trace3 (r : mat3 R) : R := r00 r + r11 r + r22 r.

Definition det3 (r : mat3 R) : R :=
  r00 r * (r11 r * r22 r - r12 r * r21 r)
  - r01 r * (r10 r * r22 r - r12 r * r20 r)
  + r02 r * (r10 r * r21 r - r11 r * r20 r).

(** The rows are orthonormal. *)
Definition orthonormal (r : mat3 R) : Prop :=
  r00 r * r00 r + r01 r * r01 r + r02 r * r02 r = 1 /\
  r10 r * r10 r + r11 r * r11 r + r12 r * r12 r = 1 /\
  r20 r * r20 r + r21 r * r21 r + r22 r * r22 r = 1 /\
  r00 r * r10 r + r01 r * r11 r + r02 r * r12 r = 0 /\
  r00 r * r20 r + r01 r * r21 r + r02 r * r22 r = 0 /\
  r10 r * r20 r + r11 r * r21 r + r12 r * r22 r = 0.

(** A proper rotation matrix: orthonormal, determinant +1. *)
Definition proper_rotation (r : mat3 R) : Prop :=
  orthonormal r /\ det3 r = 1.

(** The rotation a quaternion (x, y, z, w) represents; q and -q give the
    same matrix. *)
Definition quaternion_rotation (x y z w : R) : mat3 R :=
  Mat3 (1 - 2 * (y * y + z * z)) (2 * (x * y - z * w)) (2 * (x * z + y * w))
       (2 * (x * y + z * w)) (1 - 2 * (x * x + z * z)) (2 * (y * z - x * w))
       (2 * (x * z - y * w)) (2 * (y * z + x * w)) (1 - 2 * (x * x + y * y)).

Definition identity3 : mat3 R := Mat3 1 0 0 0 1 0 0 0 1.

(** Rotation by 90 degrees about Z. *)
Definition rot_z_90 : mat3 R := Mat3 0 (-1) 0 1 0 0 0 0 1.

(** Rotation by 180 degrees about X. *)
Definition rot_x_180 : mat3 R := Mat3 1 0 0 0 (-1) 0 0 0 (-1).

(** ** Arrays *)

Definition vector : Type := list R.
Definition matrix : Type := list (list R).

(** [A.shape[0]] and [A.shape[1]].  A list of rows cannot tell a (0, n)
    array from a (0, 0) one; no array of the driver has zero rows. *)
Definition nrows (A : matrix) : nat := length A.
Definition ncols (A : matrix) : nat := length (hd [] A).

(** [A] is an [m] x [n] array. *)
Definition has_shape (m n : nat) (A : matrix) : Prop :=
  length A = m /\ Forall (fun row => length row = n) A.

Definition vget (v : vector) (i : nat) : R := nth i v 0.
Definition mget (A : matrix) (i j : nat) : R := nth j (nth i A []) 0.

Definition mk_vector (n : nat) (f : nat -> R) : vector := map f (seq 0 n).
Definition mk_matrix (m n : nat) (f : nat -> nat -> R) : matrix :=
  map (fun i => map (f i) (seq 0 n)) (seq 0 m).

(** f 0 + f 1 + ... + f (n-1). *)
Fixpoint sum_n (n : nat) (f : nat -> R) : R :=
  match n with
  | O => 0
  | S k => sum_n k f + f k
  end.

(** The array operations with their dimensions given. *)
Definition mmul (m n p : nat) (A B : matrix) : matrix :=
  mk_matrix m p (fun i j => sum_n n (fun k => mget A i k * mget B k j)).
Definition mvec (m n : nat) (A : matrix) (v : vector) : vector :=
  mk_vector m (fun i => sum_n n (fun k => mget A i k * vget v k)).
Definition mtrans (m n : nat) (A : matrix) : matrix :=
  mk_matrix n m (fun i j => mget A j i).
Definition madd (m n : nat) (A B : matrix) : matrix :=
  mk_matrix m n (fun i j => mget A i j + mget B i j).
Definition msub (m n : nat) (A B : matrix) : matrix :=
  mk_matrix m n (fun i j => mget A i j - mget B i j).
Definition mscale (m n : nat) (c : R) (A : matrix) : matrix :=
  mk_matrix m n (fun i j => c * mget A i j).
Definition mzero (m n : nat) : matrix := mk_matrix m n (fun _ _ => 0).
Definition trace (m : nat) (A : matrix) : R := sum_n m (fun i => mget A i i).

(** [np.eye(n)]. *)
Definition eye (n : nat) : matrix :=
  mk_matrix n n (fun i j => if Nat.eqb i j then 1 else 0).

(** [A.T]. *)
Definition transpose (A : matrix) : matrix := mtrans (nrows A) (ncols A) A.

(** [A @ B] for two-dimensional [A] and [B]: numpy raises ValueError unless
    [A.shape[1] == B.shape[0]]. *)
Definition matmul (A B : matrix) : option matrix :=
  if Nat.eqb (ncols A) (nrows B)
  then Some (mmul (nrows A) (ncols A) (ncols B) A B)
  else None.

(** [A @ v] for two-dimensional [A] and one-dimensional [v]. *)
Definition matvec (A : matrix) (v : vector) : option vector :=
  if Nat.eqb (ncols A) (length v)
  then Some (mvec (nrows A) (ncols A) A v)
  else None.

(** numpy broadcasting of one axis: equal lengths, or one of them is 1. *)
Definition bdim (a b : nat) : option nat :=
  if Nat.eqb a b then Some a
  else if Nat.eqb a 1 then Some b
  else if Nat.eqb b 1 then Some a
  else None.

(** The index read on an axis of length [a]: an axis of length 1 is
    repeated. *)
Definition bidx (a i : nat) : nat := if Nat.eqb a 1 then O else i.

(** An elementwise operation on two two-dimensional arrays. *)
Definition broadcast2 (f : R -> R -> R) (A B : matrix) : option matrix :=
  match bdim (nrows A) (nrows B), bdim (ncols A) (ncols B) with
  | Some m, Some n =>
      Some (mk_matrix m n (fun i j =>
              f (mget A (bidx (nrows A) i) (bidx (ncols A) j))
                (mget B (bidx (nrows B) i) (bidx (ncols B) j))))
  | _, _ => None
  end.

(** An elementwise operation on two one-dimensional arrays. *)
Definition broadcast1 (f : R -> R -> R) (u v : vector) : option vector :=
  match bdim (length u) (length v) with
  | Some n =>
      Some (mk_vector n (fun i =>
              f (vget u (bidx (length u) i)) (vget v (bidx (length v) i))))
  | None => None
  end.

(** [v.reshape(-1, 1)] of a one-dimensional array. *)
Definition reshape_col (v : vector) : matrix := map (fun x => [x]) v.

(** [A.flatten()]. *)
Definition flatten (A : matrix) : vector := concat A.

(** [v * c] for a scalar [c]. *)
Definition vscale (v : vector) (c : R) : vector := map (fun x => x * c) v.

(** [np.clip(v, lo, hi)], that is [minimum(maximum(v, lo), hi)]. *)
Definition clip1 (lo hi x : R) : R := Rmin (Rmax x lo) hi.
Definition clip (v : vector) (lo hi : R) : vector := map (clip1 lo hi) v.

(** *** 3 x 3 matrices

    The Gram matrix [A @ A.T] of an array of three rows is a 3 x 3 matrix;
    these are the operations of [mat3 R] on it. *)

Definition zero_mat3 : mat3 R := Mat3 0 0 0 0 0 0 0 0 0.

Definition mul3 (x y : mat3 R) : mat3 R :=
  Mat3 (r00 x * r00 y + r01 x * r10 y + r02 x * r20 y)
       (r00 x * r01 y + r01 x * r11 y + r02 x * r21 y)
       (r00 x * r02 y + r01 x * r12 y + r02 x * r22 y)
       (r10 x * r00 y + r11 x * r10 y + r12 x * r20 y)
       (r10 x * r01 y + r11 x * r11 y + r12 x * r21 y)
       (r10 x * r02 y + r11 x * r12 y + r12 x * r22 y)
       (r20 x * r00 y + r21 x * r10 y + r22 x * r20 y)
       (r20 x * r01 y + r21 x * r11 y + r22 x * r21 y)
       (r20 x * r02 y + r21 x * r12 y + r22 x * r22 y).

Definition add3 (x y : mat3 R) : mat3 R :=
  Mat3 (r00 x + r00 y) (r01 x + r01 y) (r02 x + r02 y)
       (r10 x + r10 y) (r11 x + r11 y) (r12 x + r12 y)
       (r20 x + r20 y) (r21 x + r21 y) (r22 x + r22 y).

Definition scale3 (c : R) (x : mat3 R) : mat3 R :=
  Mat3 (c * r00 x) (c * r01 x) (c * r02 x)
       (c * r10 x) (c * r11 x) (c * r12 x)
       (c * r20 x) (c * r21 x) (c * r22 x).

Definition transpose3 (x : mat3 R) : mat3 R :=
  Mat3 (r00 x) (r10 x) (r20 x) (r01 x) (r11 x) (r21 x) (r02 x) (r12 x) (r22 x).

(** The sum of the principal 2 x 2 minors. *)
Definition minors3 (r : mat3 R) : R :=
  (r00 r * r11 r - r01 r * r10 r)
  + (r00 r * r22 r - r02 r * r20 r)
  + (r11 r * r22 r - r12 r * r21 r).

(** The adjugate. *)
Definition adj3 (r : mat3 R) : mat3 R :=
  Mat3 (r11 r * r22 r - r12 r * r21 r) (r02 r * r21 r - r01 r * r22 r)
       (r01 r * r12 r - r02 r * r11 r)
       (r12 r * r20 r - r10 r * r22 r) (r00 r * r22 r - r02 r * r20 r)
       (r02 r * r10 r - r00 r * r12 r)
       (r10 r * r21 r - r11 r * r20 r) (r01 r * r20 r - r00 r * r21 r)
       (r00 r * r11 r - r01 r * r10 r).

(** [r - (trace r) I]. *)
Definition shift3 (r : mat3 R) : mat3 R :=
  add3 r (scale3 (- trace3 r) identity3).

Definition symmetric3 (G : mat3 R) : Prop :=
  r10 G = r01 G /\ r20 G = r02 G /\ r21 G = r12 G.

(** A [mat3] as an array. *)
Definition of_mat3 (x : mat3 R) : matrix :=
  [[r00 x; r01 x; r02 x]; [r10 x; r11 x; r12 x]; [r20 x; r21 x; r22 x]].

(** The Gram matrix [A @ A.T] of an array of three rows and [n] columns. *)
Definition gram3 (n : nat) (A : matrix) : mat3 R :=
  let g (i j : nat) := sum_n n (fun k => mget A i k * mget A j k) in
  Mat3 (g 0%nat 0%nat) (g 0%nat 1%nat) (g 0%nat 2%nat)
       (g 1%nat 0%nat) (g 1%nat 1%nat) (g 1%nat 2%nat)
       (g 2%nat 0%nat) (g 2%nat 1%nat) (g 2%nat 2%nat).

(** Vectors of three numbers, and the product of a 3 x 3 matrix with one. *)
Definition vec3 : Type := (R * R * R)%type.

Definition mulv3 (x : mat3 R) (u : vec3) : vec3 :=
  let '(a, b, c) := u in
  (r00 x * a + r01 x * b + r02 x * c,
   r10 x * a + r11 x * b + r12 x * c,
   r20 x * a + r21 x * b + r22 x * c).

Definition scalev3 (k : R) (u : vec3) : vec3 :=
  let '(a, b, c) := u in (k * a, k * b, k * c).

Definition of_vec3 (u : vec3) : vector :=
  let '(a, b, c) := u in [a; b; c].

(** *** [np.linalg.pinv]

    [np.linalg.pinv(a)], with its default [rcond = 1e-15], takes a singular
    value decomposition [a = u @ diag(s) @ vt], sets
    [cutoff = rcond * max(s)], replaces every singular value [s_i > cutoff]
    by [1 / s_i] and every other one by 0, and returns
    [vt.T @ diag(s) @ u.T].

    In exact arithmetic, for an array [A] of three rows: the squares of the
    singular values are the eigenvalues [l1 >= l2 >= l3] of the Gram matrix
    [G = A @ A.T], the columns of [u] are eigenvectors of [G], and the result
    is [A.T @ g(G)], where [g(G)] has the eigenvectors of [G], with
    eigenvalue [1 / l_i] where [s_i] is kept and 0 where it is dropped.
    [g(G)] is a polynomial in [G], written out below for each number of
    singular values kept; [truncated_inverse_eigenvector] and
    [pinv_singular_vector] state what it does on each eigenvector. *)

Definition rcond : R := 1 / 10 ^ 15.

(** [l1 >= l2 >= l3] are the eigenvalues of [G], with their multiplicities:
    the characteristic polynomial of [G] is (x - l1) (x - l2) (x - l3). *)
Definition is_spectrum (G : mat3 R) (l1 l2 l3 : R) : Prop :=
  l3 <= l2 /\ l2 <= l1 /\
  l1 + l2 + l3 = trace3 G /\
  l1 * l2 + l1 * l3 + l2 * l3 = minors3 G /\
  l1 * l2 * l3 = det3 G.

(** The eigenvalues of [G] in decreasing order: there is at most one such
    triple ([is_spectrum_unique] below), and a symmetric matrix has one
    ([spectrum_exists]). *)
Definition spectrum (G : mat3 R) : R * R * R :=
  epsilon (inhabits (0, 0, 0))
    (fun t => is_spectrum G (fst (fst t)) (snd (fst t)) (snd t)).

(** [G - l I]. *)
Definition minus_scalar3 (G : mat3 R) (l : R) : mat3 R :=
  add3 G (scale3 (- l) identity3).

(** The projector on the eigenspace of a simple eigenvalue [l], the other
    two eigenvalues being [a] and [b]. *)
Definition eigen_projector3 (G : mat3 R) (l a b : R) : mat3 R :=
  scale3 (/ ((l - a) * (l - b)))
    (mul3 (minus_scalar3 G a) (minus_scalar3 G b)).

(** [g(G)] for a symmetric [G]: the inverse of [G] on the eigenspaces of the
    singular values above the cut-off, zero on the others. *)
Definition truncated_inverse (G : mat3 R) : mat3 R :=
  let '(l1, l2, l3) := spectrum G in
  let cutoff := rcond * sqrt l1 in
  if Rlt_dec cutoff (sqrt l3) then
    (* all three kept: the inverse of G *)
    scale3 (/ det3 G) (adj3 G)
  else if Rlt_dec cutoff (sqrt l2) then
    (* s3 dropped: ((l1 + l2) I - G) / (l1 l2) inverts G on the eigenspaces
       of l1 and l2 *)
    mul3 (add3 identity3 (scale3 (- 1) (eigen_projector3 G l3 l1 l2)))
         (scale3 (/ (l1 * l2))
            (add3 (scale3 (l1 + l2) identity3) (scale3 (- 1) G)))
  else if Rlt_dec cutoff (sqrt l1) then
    (* s1 alone kept *)
    scale3 (/ l1) (eigen_projector3 G l1 l2 l3)
  else zero_mat3.

(** For an array of another number of rows no cut-off is modelled: the
    pseudo-inverse is computed by Decell's finite algorithm (from the
    characteristic polynomial of [A @ A.T], by the Faddeev-LeVerrier
    recursion).  The resolver needs a Jacobian of three rows. *)

(** With [B_0 = I], round [k] computes [a_k = - trace (G B_(k-1)) / k] and
    [B_k = G B_(k-1) + a_k I]; the result is [- At B_(r-1) / a_r] for the
    last [r] with [a_r <> 0], and zero when there is none. *)
Fixpoint decell (m n : nat) (At G B : matrix) (k fuel : nat) (acc : matrix)
  : matrix :=
  match fuel with
  | O => acc
  | S fuel' =>
      let GB := mmul m m m G B in
      let a := - trace m GB / INR k in
      let acc' :=
        if Req_dec_T a 0 then acc
        else mscale n m (- / a) (mmul n m m At B) in
      decell m n At G (madd m m GB (mscale m m a (eye m))) (S k) fuel' acc'
  end.

Definition pinv (A : matrix) : matrix :=
  let m := nrows A in
  let n := ncols A in
  let At := transpose A in
  if Nat.eqb m 3
  then mmul n 3 3 At (of_mat3 (truncated_inverse (gram3 n A)))
  else decell m n At (mmul m n m A At) (eye m) 1 m (mzero n m).

(** The singular value [sqrt l] is zero or above the cut-off, [sqrt l1]
    being the largest singular value: [np.linalg.pinv] drops no singular
    value but a zero one. *)
Definition zero_or_kept (l1 l : R) : Prop :=
  l = 0 \/ rcond * sqrt l1 < sqrt l.

Definition drops_nothing (l1 l2 l3 : R) : Prop :=
  zero_or_kept l1 l1 /\ zero_or_kept l1 l2 /\ zero_or_kept l1 l3.

(** The four Penrose equations for an [m] x [n] array [A] and an [n] x [m]
    array [X]. *)
Definition symmetric (n : nat) (A : matrix) : Prop := mtrans n n A = A.

Definition moore_penrose (m n : nat) (A X : matrix) : Prop :=
  mmul m m n (mmul m n m A X) A = A /\
  mmul n n m (mmul n m n X A) X = X /\
  symmetric m (mmul m n m A X) /\
  symmetric n (mmul n m n X A).

(** ** The differential IK resolver *)

Definition N_JOINTS : nat := 7.

(** [np.deg2rad]. *)
Definition deg2rad (x : R) : R := x * (PI / 180).
Definition RAD_120 : R := deg2rad 120.

(** The kinematic model, class [Robot] of module [snakesim.robot]; the
    module is not part of the driver.  [jacobian q] is a two-dimensional
    array.  [q0dot q k0] is a two-dimensional array as well, a column: the
    driver reshapes the task term to a column before adding the two and
    flattens the sum. *)
Record Robot : Type := {
  jacobian : vector -> matrix;
  q0dot : vector -> R -> matrix
}.

Definition bind {A B : Type} (x : option A) (f : A -> option B) : option B :=
  match x with
  | Some a => f a
  | None => None
  end.

Notation "x <- e ;; k" := (bind e (fun x => k))
  (at level 61, e at next level, right associativity).

(** The sum [q + dq * dt] before it is clipped. *)
Definition joint_candidate (robot : Robot) (q dx : vector) (k0 dt : R)
  : option vector :=
  let J := jacobian robot q in
  let JT := pinv J in
  let q0d := q0dot robot q k0 in
  task <- matvec JT dx ;;
  JTJ <- matmul JT J ;;
  P <- broadcast2 Rminus (eye N_JOINTS) JTJ ;;
  null <- matmul P q0d ;;
  dq <- broadcast2 Rplus (reshape_col task) null ;;
  broadcast1 Rplus q (vscale (flatten dq) dt).

(** [SnakeDriver.update_joint_position]. *)
Definition update_joint_position (robot : Robot) (q dx : vector) (k0 dt : R)
  : option vector :=
  c <- joint_candidate robot q dx k0 dt ;;
  Some (clip c (- RAD_120) RAD_120).

(** The default of the parameter [dt]. *)
Definition dt_default : R := 32 / 1000.

(** ** The driver *)

(** [geometry_msgs/Twist], [geometry_msgs/Pose]. *)
Record Vector3 : Type := { vx : R; vy : R; vz : R }.
Record Twist : Type := { linear : Vector3; angular : Vector3 }.
Record Pose : Type := {
  position : Vector3;
  orientation : list xreal (* x, y, z, w *)
}.

(** The response of the service [init_joint_state]. *)
Record Response : Type := { success : bool }.

(** The fields of [SnakeDriver] and the state of the devices it drives.
    The Webots simulation is seen through what the driver reads and writes:
    [motors] holds the position last commanded to each motor ([setPosition]),
    [sensors] the values [getValue] returns, [end_eff] the sixteen numbers
    [getPose()] returns for the end effector, [basic_time_step] the result
    of [getBasicTimeStep()] in milliseconds, [sim_steps] the number of
    simulation steps run so far, [published] the messages sent on
    [end_effector_pose], latest first. *)
Record SnakeDriver : Type := {
  motors : list R;
  sensors : list R;
  end_eff : list R;
  basic_time_step : R;
  sim_steps : nat;
  published : list Pose;
  target_twist : Twist;
  gain : R;
  robot : Robot
}.

Definition with_motors (d : SnakeDriver) (ms : list R) : SnakeDriver :=
  {| motors := ms; sensors := sensors d; end_eff := end_eff d;
     basic_time_step := basic_time_step d; sim_steps := sim_steps d;
     published := published d; target_twist := target_twist d;
     gain := gain d; robot := robot d |}.

Definition with_sim_steps (d : SnakeDriver) (k : nat) : SnakeDriver :=
  {| motors := motors d; sensors := sensors d; end_eff := end_eff d;
     basic_time_step := basic_time_step d; sim_steps := k;
     published := published d; target_twist := target_twist d;
     gain := gain d; robot := robot d |}.

Definition with_published (d : SnakeDriver) (ps : list Pose) : SnakeDriver :=
  {| motors := motors d; sensors := sensors d; end_eff := end_eff d;
     basic_time_step := basic_time_step d; sim_steps := sim_steps d;
     published := ps; target_twist := target_twist d;
     gain := gain d; robot := robot d |}.

(** [SnakeDriver.twist_callback]. *)
Definition twist_callback (d : SnakeDriver) (msg : Twist) : SnakeDriver :=
  {| motors := motors d; sensors := sensors d; end_eff := end_eff d;
     basic_time_step := basic_time_step d; sim_steps := sim_steps d;
     published := published d; target_twist := msg;
     gain := gain d; robot := robot d |}.

(** [SnakeDriver.gain_callback]. *)
Definition gain_callback (d : SnakeDriver) (data : R) : SnakeDriver :=
  {| motors := motors d; sensors := sensors d; end_eff := end_eff d;
     basic_time_step := basic_time_step d; sim_steps := sim_steps d;
     published := published d; target_twist := target_twist d;
     gain := data; robot := robot d |}.

(** [int(x)] of a float: truncation toward zero. *)
Definition int_of_float (x : R) : Z :=
  if Rle_dec 0 x then Zfloor x else Zceil x.

(** [SnakeDriver.delay_simulation]: the division raises ZeroDivisionError
    when the time step is zero; each round of the loop runs one simulation
    step. *)
Definition delay_simulation (d : SnakeDriver) (seconds : R)
  : option SnakeDriver :=
  if Req_dec_T (basic_time_step d) 0 then None
  else
    let n_iter := int_of_float (1000 * seconds / basic_time_step d) in
    Some (with_sim_steps d (sim_steps d + Z.to_nat n_iter)).

(** [for i, value in enumerate(values): self.__motors[i].setPosition(value)],
    from index [i] on; [self.__motors[i]] raises IndexError past the last
    motor. *)
Fixpoint set_positions (ms : list R) (i : nat) (values : list R)
  : option (list R) :=
  match values with
  | [] => Some ms
  | value :: rest =>
      if Nat.ltb i (length ms)
      then set_positions (firstn i ms ++ value :: skipn (S i) ms) (S i) rest
      else None
  end.

(** [SnakeDriver.init_joint_state_callback], on the request's field
    [joint_state]. *)
Definition init_joint_state_callback (d : SnakeDriver) (joint_state : list R)
  : option (SnakeDriver * Response) :=
  ms <- set_positions (motors d) 0 joint_state ;;
  d' <- delay_simulation (with_motors d ms) 1 ;;
  Some (d', {| success := true |}).

(** [SnakeDriver.get_end_effector_pose]: [reshape(4, 4)] raises ValueError
    unless [getPose()] has sixteen numbers; the rotation is the upper left
    3x3 block. *)
Definition get_end_effector_pose (d : SnakeDriver) : option Pose :=
  match end_eff d with
  | [p00; p01; p02; p03; p10; p11; p12; p13;
     p20; p21; p22; p23; _; _; _; _] =>
      let rot := Mat3 p00 p01 p02 p10 p11 p12 p20 p21 p22 in
      Some {| position := {| vx := p03; vy := p13; vz := p23 |};
              orientation :=
                rotation_matrix_to_quaternion (map_mat3 Real rot) |}
  | _ => None
  end.

(** What [rclpy.spin_once(node, timeout_sec=0)] hands to the driver: at
    most one pending message or request. *)
Inductive Event : Type :=
| TwistMsg (msg : Twist)
| GainMsg (data : R)
| InitJointState (joint_state : list R).

Definition spin_once (d : SnakeDriver) (ev : option Event)
  : option SnakeDriver :=
  match ev with
  | None => Some d
  | Some (TwistMsg msg) => Some (twist_callback d msg)
  | Some (GainMsg data) => Some (gain_callback d data)
  | Some (InitJointState js) =>
      r <- init_joint_state_callback d js ;; Some (fst r)
  end.

(** [[self.__sensors[i].getValue() for i in range(N_JOINTS)]]. *)
Definition read_sensors (d : SnakeDriver) : option vector :=
  if Nat.leb N_JOINTS (length (sensors d))
  then Some (firstn N_JOINTS (sensors d))
  else None.

(** [SnakeDriver.step], one control cycle. *)
Definition step (d : SnakeDriver) (ev : option Event) : option SnakeDriver :=
  d1 <- spin_once d ev ;;
  let dx := [vx (linear (target_twist d1)); vy (linear (target_twist d1));
             vz (linear (target_twist d1))] in
  read_joint_position <- read_sensors d1 ;;
  target_joint_position <-
    update_joint_position (robot d1) read_joint_position dx (gain d1)
                          dt_default ;;
  ms <- set_positions (motors d1) 0 target_joint_position ;;
  pose <- get_end_effector_pose (with_motors d1 ms) ;;
  Some (with_published (with_motors d1 ms) (pose :: published d1)).

(** ** The control law in the specification's words

    The steps of the resolver as the specification names them, on arrays of
    the expected shapes; [joint_candidate_eq] below relates them to the
    code. *)

(** Primary task velocity, J+ dx, component [i]. *)
Definition task_velocity (J : matrix) (dx : vector) (i : nat) : R :=
  vget (mvec N_JOINTS 3 (pinv J) dx) i.

(** Null-space projector, I - J+ J. *)
Definition null_projector (J : matrix) : matrix :=
  msub N_JOINTS N_JOINTS (eye N_JOINTS) (mmul N_JOINTS 3 N_JOINTS (pinv J) J).

(** Secondary velocity, (I - J+ J) q0dot, component [i]. *)
Definition null_velocity (J q0d : matrix) (i : nat) : R :=
  mget (mmul N_JOINTS N_JOINTS 1 (null_projector J) q0d) i 0.

(** Total joint velocity dq, component [i]. *)
Definition joint_velocity (J q0d : matrix) (dx : vector) (i : nat) : R :=
  task_velocity J dx i + null_velocity J q0d i.

(** The inputs of one resolver call are well formed: N joint positions, a
    velocity of three components, a 3 x N Jacobian and a column of N
    entries from the kinematic model. *)
Definition well_formed (robot : Robot) (q dx : vector) (k0 : R) : Prop :=
  length q = N_JOINTS /\
  length dx = 3%nat /\
  has_shape 3 N_JOINTS (jacobian robot q) /\
  has_shape N_JOINTS 1 (q0dot robot q k0).

(** ** Sample inputs *)

(** A Jacobian whose rows are the first three unit vectors. *)
Definition unit_jacobian : matrix :=
  [[1; 0; 0; 0; 0; 0; 0]; [0; 1; 0; 0; 0; 0; 0]; [0; 0; 1; 0; 0; 0; 0]].

(** A kinematic model with that Jacobian everywhere and the posture
    gradient - k0 q, the pull toward the neutral pose q = 0. *)
Definition sample_robot : Robot :=
  {| jacobian := fun _ => unit_jacobian;
     q0dot := fun q k0 => mk_matrix N_JOINTS 1 (fun i _ => k0 * - vget q i) |}.

(** A kinematic model whose Jacobian is zero everywhere. *)
Definition singular_robot : Robot :=
  {| jacobian := fun _ => mzero 3 N_JOINTS;
     q0dot := fun q k0 => mk_matrix N_JOINTS 1 (fun i _ => k0 * - vget q i) |}.

Definition q_home : vector := [0; 0; 0; 0; 0; 0; 0].

(** The first joint beyond the actuation range. *)
Definition q_beyond : vector := [3; 0; 0; 0; 0; 0; 0].

Definition dx_sample : vector := [1 / 100; 0; 0].

Definition zero3 : Vector3 := {| vx := 0; vy := 0; vz := 0 |}.

Definition twist_a : Twist :=
  {| linear := {| vx := 1 / 100; vy := 0; vz := 0 |}; angular := zero3 |}.

(** [twist_a] with another angular part. *)
Definition twist_b : Twist :=
  {| linear := {| vx := 1 / 100; vy := 0; vz := 0 |};
     angular := {| vx := 1; vy := 2; vz := 3 |} |}.

Definition sample_driver : SnakeDriver :=
  {| motors := q_home; sensors := q_home;
     end_eff := [1; 0; 0; 0; 0; 1; 0; 0; 0; 0; 1; 0; 0; 0; 0; 1];
     basic_time_step := 32; sim_steps := 0; published := [];
     target_twist := {| linear := zero3; angular := zero3 |};
     gain := 0; robot := sample_robot |}.

(** A Jacobian with a singular value below the cut-off: its singular values
    are 1, 1 and 2^-70. *)
Definition small_singular_jacobian : matrix :=
  [[1; 0; 0; 0; 0; 0; 0]; [0; / 2 ^ 70; 0; 0; 0; 0; 0];
   [0; 0; 1; 0; 0; 0; 0]].

(** The posture gradient along the second joint. *)
Definition second_joint_column : matrix :=
  [[0]; [1]; [0]; [0]; [0]; [0]; [0]].

(** ** Start-up *)

(** [SnakeDriver.init]: the driver takes the motors, the position sensors
    and the end effector from the Webots node, whose state is given here by
    the positions the motors hold, the values the sensors and the end
    effector return, the basic time step and the number of simulation steps
    run; nothing has been published, [target_twist] is [Twist()], all
    zeros, [robot] is the kinematic model [Robot()] and [gain] is 0.0. *)
Definition init (motor_positions sensor_values pose : list R)
  (time_step : R) (steps : nat) (model : Robot) : SnakeDriver :=
  {| motors := motor_positions; sensors := sensor_values; end_eff := pose;
     basic_time_step := time_step; sim_steps := steps; published := [];
     target_twist :=
       {| linear := {| vx := 0; vy := 0; vz := 0 |};
          angular := {| vx := 0; vy := 0; vz := 0 |} |};
     gain := 0; robot := model |}.

(** A joint position inside the actuation range. *)
Definition in_range (x : R) : Prop := - (2 * PI / 3) <= x <= 2 * PI / 3.

(** * Properties *)

(** ** The orientation extractor *)

Lemma xsqrt_real (x : R) : 0 <= x -> xsqrt (Real x) = Real (sqrt x).
Proof.
  intros Hx. unfold xsqrt.
  destruct (Rlt_dec x 0) as [Hneg | _]; [lra | reflexivity].
Qed.

Lemma xdiv_real (x y : R) : y <> 0 -> xdiv (Real x) (Real y) = Real (x / y).
Proof.
  intros Hy. unfold xdiv.
  destruct (Req_dec_T y 0) as [Hz | _]; [contradiction | reflexivity].
Qed.

Lemma xdiv_by_zero (x : R) : xdiv (Real x) (Real 0) = NotFinite.
Proof.
  unfold xdiv.
  destruct (Req_dec_T 0 0) as [_ | Hz]; [reflexivity | contradiction].
Qed.

Section Extractor.

Variable r : mat3 R.

(** The argument of the square root. *)
Let t : R := 1 + r00 r + r11 r + r22 r.

(** On a matrix whose trace exceeds -1 no operation leaves the reals. *)
Lemma quaternion_regular :
  0 < t ->
  rotation_matrix_to_quaternion (map_mat3 Real r) =
  [Real ((r21 r - r12 r) / (4 * (sqrt t / 2)));
   Real ((r02 r - r20 r) / (4 * (sqrt t / 2)));
   Real ((r10 r - r01 r) / (4 * (sqrt t / 2)));
   Real (sqrt t / 2)].
Proof.
  intros Ht. unfold rotation_matrix_to_quaternion.
  cbn -[xdiv xsqrt]. fold t.
  assert (Hs : 0 < sqrt t) by (apply sqrt_lt_R0; exact Ht).
  rewrite xsqrt_real by lra.
  rewrite (xdiv_real (sqrt t)) by lra.
  cbn -[xdiv].
  rewrite !xdiv_real by lra.
  reflexivity.
Qed.

(** On a matrix of trace -1 the scalar part is 0 and the three divisions
    are divisions by zero. *)
Lemma quaternion_singular :
  t = 0 ->
  rotation_matrix_to_quaternion (map_mat3 Real r) =
  [NotFinite; NotFinite; NotFinite; Real 0].
Proof.
  intros Ht. unfold rotation_matrix_to_quaternion.
  cbn -[xdiv xsqrt]. fold t. rewrite Ht.
  rewrite xsqrt_real by lra. rewrite sqrt_0.
  rewrite (xdiv_real 0) by lra.
  replace (0 / 2) with 0 by lra.
  cbn -[xdiv]. rewrite Rmult_0_r, !xdiv_by_zero.
  reflexivity.
Qed.

(** Whenever the square root is defined the scalar part is its half. *)
Lemma quaternion_scalar_part :
  0 <= t ->
  nth 3 (rotation_matrix_to_quaternion (map_mat3 Real r)) NotFinite =
  Real (sqrt t / 2).
Proof.
  intros Ht. unfold rotation_matrix_to_quaternion.
  cbn -[xdiv xsqrt]. fold t.
  rewrite xsqrt_real by lra.
  rewrite (xdiv_real (sqrt t)) by lra.
  reflexivity.
Qed.

End Extractor.

(** Consequences of orthonormality and determinant 1, with
    [t = 1 + trace]. *)
Section RotationAlgebra.

Variables a b c d e f g h i : R.
Hypothesis row0 : a * a + b * b + c * c = 1.
Hypothesis row1 : d * d + e * e + f * f = 1.
Hypothesis row2 : g * g + h * h + i * i = 1.
Hypothesis row01 : a * d + b * e + c * f = 0.
Hypothesis row02 : a * g + b * h + c * i = 0.
Hypothesis row12 : d * g + e * h + f * i = 0.
Hypothesis det1 :
  a * (e * i - f * h) - b * (d * i - f * g) + c * (d * h - e * g) = 1.

Let t : R := 1 + a + e + i.

Lemma skew_norm :
  (h - f) * (h - f) + (c - g) * (c - g) + (d - b) * (d - b) = t * (4 - t).
Proof. unfold t. nsatz. Qed.

Lemma skew_diag0 : (c - g) * (c - g) + (d - b) * (d - b) = 2 * t * (1 - a).
Proof. unfold t. nsatz. Qed.

Lemma skew_diag1 : (h - f) * (h - f) + (d - b) * (d - b) = 2 * t * (1 - e).
Proof. unfold t. nsatz. Qed.

Lemma skew_diag2 : (h - f) * (h - f) + (c - g) * (c - g) = 2 * t * (1 - i).
Proof. unfold t. nsatz. Qed.

Lemma skew_xy : (h - f) * (c - g) = t * (d + b).
Proof. unfold t. nsatz. Qed.

Lemma skew_xz : (h - f) * (d - b) = t * (c + g).
Proof. unfold t. nsatz. Qed.

Lemma skew_yz : (c - g) * (d - b) = t * (h + f).
Proof. unfold t. nsatz. Qed.

(** The trace of a rotation is at least -1. *)
Lemma rotation_trace_lower : 0 <= t.
Proof.
  pose proof skew_norm as Hn.
  assert (Hsq : 0 <= t * (4 - t)).
  { rewrite <- Hn.
    pose proof (Rle_0_sqr (h - f)) as H1.
    pose proof (Rle_0_sqr (c - g)) as H2.
    pose proof (Rle_0_sqr (d - b)) as H3.
    unfold Rsqr in *. lra. }
  destruct (Rle_dec 0 t) as [Hle | Hgt]; [exact Hle | exfalso].
  assert (Hlt : t < 0) by lra.
  assert (0 < (- t) * (4 - t)) by (apply Rmult_lt_0_compat; lra).
  lra.
Qed.

End RotationAlgebra.

Lemma identity3_proper : proper_rotation identity3.
Proof.
  unfold proper_rotation, orthonormal, det3, identity3; cbn.
  repeat split; lra.
Qed.

Lemma rot_z_90_proper : proper_rotation rot_z_90.
Proof.
  unfold proper_rotation, orthonormal, det3, rot_z_90; cbn.
  repeat split; lra.
Qed.

Lemma rot_x_180_proper : proper_rotation rot_x_180.
Proof.
  unfold proper_rotation, orthonormal, det3, rot_x_180; cbn.
  repeat split; lra.
Qed.

Lemma rot_z_90_trace : trace3 rot_z_90 <> -1.
Proof. unfold trace3, rot_z_90; cbn. lra. Qed.

Lemma quaternion_of_identity :
  rotation_matrix_to_quaternion (map_mat3 Real identity3) =
  [Real 0; Real 0; Real 0; Real 1].
Proof.
  rewrite quaternion_regular by (unfold identity3; cbn; lra).
  unfold identity3; cbn.
  replace (1 + 1 + 1 + 1) with (2 * 2) by lra.
  rewrite sqrt_square by lra.
  replace ((0 - 0) / (4 * (2 / 2))) with 0 by field.
  replace (2 / 2) with 1 by field.
  reflexivity.
Qed.

Lemma quaternion_of_rot_z_90 :
  rotation_matrix_to_quaternion (map_mat3 Real rot_z_90) =
  [Real 0; Real 0; Real (sin (PI / 4)); Real (cos (PI / 4))].
Proof.
  rewrite quaternion_regular by (unfold rot_z_90; cbn; lra).
  unfold rot_z_90; cbn.
  rewrite sin_PI4, cos_PI4.
  replace (1 + 0 + 0 + 1) with 2 by lra.
  assert (Hs : 0 < sqrt 2) by (apply sqrt_lt_R0; lra).
  assert (Hss : sqrt 2 * sqrt 2 = 2) by (apply sqrt_sqrt; lra).
  replace ((0 - 0) / (4 * (sqrt 2 / 2))) with 0 by (field; lra).
  replace ((1 - -1) / (4 * (sqrt 2 / 2))) with (1 / sqrt 2)
    by (field_simplify_eq; [nra | lra]).
  replace (sqrt 2 / 2) with (1 / sqrt 2)
    by (field_simplify_eq; [nra | lra]).
  reflexivity.
Qed.

(** C4.  For every proper rotation matrix whose trace is not -1 the
    extractor returns four finite numbers (x, y, z, w) with
    x^2 + y^2 + z^2 + w^2 = 1 (a unit quaternion), and the rotation that
    this quaternion represents (the same for q and -q) is the input matrix.
    The identity gives (0, 0, 0, 1) and the rotation by 90 degrees about Z
    gives (0, 0, sin 45, cos 45). *)
Theorem rotation_matrix_to_quaternion_unit (r : mat3 R) :
  proper_rotation r ->
  trace3 r <> -1 ->
  (exists x y z w : R,
      rotation_matrix_to_quaternion (map_mat3 Real r) =
      [Real x; Real y; Real z; Real w] /\
      x * x + y * y + z * z + w * w = 1 /\
      quaternion_rotation x y z w = r) /\
  rotation_matrix_to_quaternion (map_mat3 Real identity3) =
  [Real 0; Real 0; Real 0; Real 1] /\
  rotation_matrix_to_quaternion (map_mat3 Real rot_z_90) =
  [Real 0; Real 0; Real (sin (PI / 4)); Real (cos (PI / 4))].
Proof.
  intros [Horth Hdet] Htr.
  split;
    [| split; [exact quaternion_of_identity | exact quaternion_of_rot_z_90]].
  destruct r as [a b c d e f g h i].
  unfold orthonormal, det3, trace3 in *; cbn in *.
  destruct Horth as (H0 & H1 & H2 & H01 & H02 & H12).
  pose proof (rotation_trace_lower H0 H1 H2 H01 H02 H12 Hdet) as Hlow.
  pose proof (skew_norm H0 H1 H2 H01 H02 H12 Hdet) as Hn.
  pose proof (skew_diag0 H0 H1 H2 H01 H02 H12 Hdet) as Hd0.
  pose proof (skew_diag1 H0 H1 H2 H01 H02 H12 Hdet) as Hd1.
  pose proof (skew_diag2 H0 H1 H2 H01 H02 H12 Hdet) as Hd2.
  pose proof (skew_xy H0 H1 H2 H01 H02 H12 Hdet) as Hxy.
  pose proof (skew_xz H0 H1 H2 H01 H02 H12 Hdet) as Hxz.
  pose proof (skew_yz H0 H1 H2 H01 H02 H12 Hdet) as Hyz.
  cbv zeta in *.
  set (t := 1 + a + e + i) in *.
  assert (Ht : 0 < t) by (unfold t in *; lra).
  assert (Hs : 0 < sqrt t) by (apply sqrt_lt_R0; exact Ht).
  assert (Hss : sqrt t * sqrt t = t) by (apply sqrt_sqrt; lra).
  eexists _, _, _, _.
  split; [apply quaternion_regular; cbn; fold t; exact Ht |].
  cbn. fold t.
  set (s := sqrt t) in *.
  assert (Hq : forall u v : R,
             u / (4 * (s / 2)) * (v / (4 * (s / 2))) = u * v / (4 * t)).
  { intros u v. rewrite <- Hss. field. lra. }
  assert (Hw : forall u : R, u / (4 * (s / 2)) * (s / 2) = u / 4).
  { intros u. field. lra. }
  assert (Hww : s / 2 * (s / 2) = t / 4) by (rewrite <- Hss; field).
  split.
  - rewrite !Hq, Hww. field_simplify_eq; [| lra]. nra.
  - unfold quaternion_rotation.
    rewrite !Hq, !Hw.
    f_equal; field_simplify_eq; try lra; nra.
Qed.

Lemma rotation_matrix_to_quaternion_unit_witness :
  exists x y z w : R,
    rotation_matrix_to_quaternion (map_mat3 Real rot_z_90) =
    [Real x; Real y; Real z; Real w] /\
    x * x + y * y + z * z + w * w = 1 /\
    quaternion_rotation x y z w = rot_z_90.
Proof.
  exact (proj1 (rotation_matrix_to_quaternion_unit rot_z_90_proper
                  rot_z_90_trace)).
Defined.

Module F64Examples.
Import PrimFloat.

Example f64_quaternion_of_identity :
  rotation_matrix_to_quaternion (f64_mat3 (Mat3 1 0 0 0 1 0 0 0 1)%Z) =
  [0; 0; 0; 1]%float.
Proof. vm_compute. reflexivity. Qed.

(** The two nonzero components, 0.7071067811865475 and 0.7071067811865476,
    differ in the last bit. *)
Example f64_quaternion_of_rot_z_90 :
  rotation_matrix_to_quaternion (f64_mat3 (Mat3 0 (-1) 0 1 0 0 0 0 1)%Z) =
  [0; 0; 0x1.6a09e667f3bccp-1; 0x1.6a09e667f3bcdp-1]%float.
Proof. vm_compute. reflexivity. Qed.

End F64Examples.

(** C5.  There is a proper rotation matrix of trace -1 (the half turn about
    X) on which the extractor computes w = 0 and each of x, y, z by a
    division by zero, nothing guarding the denominator 4w: in exact
    arithmetic the three results are not finite numbers, and in binary64
    each of them is 0/0 = nan. *)
Theorem quaternion_half_turn_unguarded :
  exists r : mat3 Z,
    proper_rotation (map_mat3 IZR r) /\
    trace3 (map_mat3 IZR r) = -1 /\
    rotation_matrix_to_quaternion (map_mat3 Real (map_mat3 IZR r)) =
    [NotFinite; NotFinite; NotFinite; Real 0] /\
    rotation_matrix_to_quaternion (f64_mat3 r) =
    [PrimFloat.nan; PrimFloat.nan; PrimFloat.nan; PrimFloat.zero].
Proof.
  exists (Mat3 1 0 0 0 (-1) 0 0 0 (-1))%Z.
  split; [exact rot_x_180_proper |].
  split; [unfold trace3; cbn; lra |].
  split.
  - apply quaternion_singular. cbn. lra.
  - vm_compute. reflexivity.
Qed.

(** The rotation matrix of a unit quaternion has 1 + trace = (2 w)^2. *)
Lemma quaternion_rotation_trace (x y z w : R) :
  x * x + y * y + z * z + w * w = 1 ->
  1 + r00 (quaternion_rotation x y z w) + r11 (quaternion_rotation x y z w)
  + r22 (quaternion_rotation x y z w) = (2 * w) * (2 * w).
Proof. intros Hunit. cbn. nra. Qed.

(** On the rotation matrix of a unit quaternion of positive scalar part the
    extractor returns that quaternion. *)
Lemma quaternion_of_positive (x y z w : R) :
  x * x + y * y + z * z + w * w = 1 -> 0 < w ->
  rotation_matrix_to_quaternion (map_mat3 Real (quaternion_rotation x y z w))
  = [Real x; Real y; Real z; Real w].
Proof.
  intros Hunit Hw.
  pose proof (quaternion_rotation_trace Hunit) as Ht.
  rewrite quaternion_regular by (rewrite Ht; nra).
  rewrite Ht, sqrt_square by lra. cbn.
  repeat (apply f_equal2; [apply f_equal; field; lra |]).
  reflexivity.
Qed.

(** A quaternion and its opposite have the same rotation matrix. *)
Lemma quaternion_rotation_opp (x y z w : R) :
  quaternion_rotation (- x) (- y) (- z) (- w) = quaternion_rotation x y z w.
Proof. unfold quaternion_rotation. f_equal; ring. Qed.

(** C10, as amended.  On every matrix for which the square root is defined
    (1 + r00 + r11 + r22 >= 0) the scalar component w of the result is a
    non-negative number.  Of the two unit quaternions q = (x, y, z, w) and
    -q that represent an orientation r, the extractor returns the one of
    positive scalar part when the scalar part is not zero; when it is zero
    (a half turn: both representatives have w = 0) the extractor returns
    neither, the components x, y, z of the result not being finite. *)
Theorem quaternion_nonneg_representative (r : mat3 R) (x y z w : R) :
  0 <= 1 + r00 r + r11 r + r22 r ->
  (exists w0 : R,
      nth 3 (rotation_matrix_to_quaternion (map_mat3 Real r)) NotFinite =
      Real w0 /\
      0 <= w0) /\
  (x * x + y * y + z * z + w * w = 1 ->
   quaternion_rotation x y z w = r ->
   (0 < w ->
    rotation_matrix_to_quaternion (map_mat3 Real r) =
    [Real x; Real y; Real z; Real w]) /\
   (w < 0 ->
    rotation_matrix_to_quaternion (map_mat3 Real r) =
    [Real (- x); Real (- y); Real (- z); Real (- w)]) /\
   (w = 0 ->
    rotation_matrix_to_quaternion (map_mat3 Real r) =
    [NotFinite; NotFinite; NotFinite; Real 0])).
Proof.
  intros Ht. split.
  - exists (sqrt (1 + r00 r + r11 r + r22 r) / 2).
    split; [apply quaternion_scalar_part; exact Ht |].
    pose proof (sqrt_pos (1 + r00 r + r11 r + r22 r)). lra.
  - intros Hunit Hr. split; [| split]; intros Hw.
    + rewrite <- Hr. apply quaternion_of_positive; assumption.
    + rewrite <- Hr, <- quaternion_rotation_opp.
      apply quaternion_of_positive; [| lra].
      rewrite <- Hunit. ring.
    + apply quaternion_singular.
      rewrite <- Hr, (quaternion_rotation_trace Hunit), Hw. ring.
Qed.

Lemma quaternion_nonneg_representative_witness :
  rotation_matrix_to_quaternion
    (map_mat3 Real (quaternion_rotation 0 0 (3 / 5) (- (4 / 5)))) =
  [Real (- 0); Real (- 0); Real (- (3 / 5)); Real (- - (4 / 5))].
Proof.
  apply (@quaternion_nonneg_representative
           (quaternion_rotation 0 0 (3 / 5) (- (4 / 5)))
           0 0 (3 / 5) (- (4 / 5))).
  - cbn. lra.
  - lra.
  - reflexivity.
  - lra.
Defined.

(** C10, as stated, fails at a half turn.  The half turn about X has
    1 + trace = 0, so the square root is defined; its two representatives
    are (1, 0, 0, 0) and (-1, 0, 0, 0), both of scalar part 0; the
    extractor returns neither of them, and no quaternion of four numbers
    at all. *)
Lemma quaternion_half_turn_no_representative :
  0 <= 1 + r00 rot_x_180 + r11 rot_x_180 + r22 rot_x_180 /\
  quaternion_rotation 1 0 0 0 = rot_x_180 /\
  quaternion_rotation (- 1) 0 0 0 = rot_x_180 /\
  rotation_matrix_to_quaternion (map_mat3 Real rot_x_180) <>
  [Real 1; Real 0; Real 0; Real 0] /\
  rotation_matrix_to_quaternion (map_mat3 Real rot_x_180) <>
  [Real (- 1); Real 0; Real 0; Real 0] /\
  (forall x y z w : R,
      rotation_matrix_to_quaternion (map_mat3 Real rot_x_180) <>
      [Real x; Real y; Real z; Real w]).
Proof.
  assert (H : rotation_matrix_to_quaternion (map_mat3 Real rot_x_180) =
              [NotFinite; NotFinite; NotFinite; Real 0])
    by (apply quaternion_singular; cbn; lra).
  split; [cbn; lra |].
  split; [unfold quaternion_rotation, rot_x_180; f_equal; ring |].
  split; [unfold quaternion_rotation, rot_x_180; f_equal; ring |].
  rewrite H. repeat split; try intros x y z w; discriminate.
Qed.

(** ** Sums and arrays *)

Lemma sum_n_ext (n : nat) (f g : nat -> R) :
  (forall k, (k < n)%nat -> f k = g k) -> sum_n n f = sum_n n g.
Proof.
  induction n as [| n IH]; intros Hfg; cbn; [reflexivity |].
  rewrite IH by (intros k Hk; apply Hfg; lia).
  rewrite (Hfg n) by lia. reflexivity.
Qed.

Lemma sum_n_zero (n : nat) : sum_n n (fun _ => 0) = 0.
Proof. induction n as [| n IH]; cbn; [reflexivity | rewrite IH; lra]. Qed.

Lemma sum_n_plus (n : nat) (f g : nat -> R) :
  sum_n n (fun k => f k + g k) = sum_n n f + sum_n n g.
Proof. induction n as [| n IH]; cbn; [lra | rewrite IH; lra]. Qed.

Lemma sum_n_minus (n : nat) (f g : nat -> R) :
  sum_n n (fun k => f k - g k) = sum_n n f - sum_n n g.
Proof. induction n as [| n IH]; cbn; [lra | rewrite IH; lra]. Qed.

Lemma sum_n_scal_l (n : nat) (c : R) (f : nat -> R) :
  sum_n n (fun k => c * f k) = c * sum_n n f.
Proof. induction n as [| n IH]; cbn; [lra | rewrite IH; lra]. Qed.

Lemma sum_n_scal_r (n : nat) (c : R) (f : nat -> R) :
  sum_n n (fun k => f k * c) = sum_n n f * c.
Proof. induction n as [| n IH]; cbn; [lra | rewrite IH; lra]. Qed.

Lemma sum_n_swap (m n : nat) (f : nat -> nat -> R) :
  sum_n m (fun i => sum_n n (fun j => f i j)) =
  sum_n n (fun j => sum_n m (fun i => f i j)).
Proof.
  induction m as [| m IH]; cbn.
  - symmetry. apply sum_n_zero.
  - rewrite IH, <- sum_n_plus. reflexivity.
Qed.

Lemma sum_n_nonneg (n : nat) (f : nat -> R) :
  (forall k, (k < n)%nat -> 0 <= f k) -> 0 <= sum_n n f.
Proof.
  induction n as [| n IH]; intros Hf; cbn; [lra |].
  assert (0 <= sum_n n f) by (apply IH; intros k Hk; apply Hf; lia).
  assert (0 <= f n) by (apply Hf; lia).
  lra.
Qed.

(** A sum of squares is zero only when every term is. *)
Lemma sum_n_squares_zero (n : nat) (f : nat -> R) :
  sum_n n (fun k => f k * f k) = 0 ->
  forall k, (k < n)%nat -> f k = 0.
Proof.
  induction n as [| n IH]; intros Hs k Hk; [lia |].
  cbn in Hs.
  assert (H1 : 0 <= sum_n n (fun j => f j * f j))
    by (apply sum_n_nonneg; intros j _; nra).
  assert (H2 : 0 <= f n * f n) by nra.
  destruct (Nat.eq_dec k n) as [-> | Hne].
  - nra.
  - apply IH; [lra | lia].
Qed.

(** Multiplying by a row of the identity selects one term. *)
Lemma sum_n_delta_l (n i : nat) (f : nat -> R) :
  (i < n)%nat ->
  sum_n n (fun k => (if Nat.eqb i k then 1 else 0) * f k) = f i.
Proof.
  induction n as [| n IH]; intros Hi; [lia |].
  cbn. destruct (Nat.eq_dec i n) as [-> | Hne].
  - rewrite Nat.eqb_refl.
    rewrite (@sum_n_ext n _ (fun _ => 0)).
    + rewrite sum_n_zero. lra.
    + intros k Hk. destruct (Nat.eqb_spec n k); [lia | lra].
  - rewrite IH by lia. destruct (Nat.eqb_spec i n); [contradiction | lra].
Qed.

Lemma sum_n_delta_r (n j : nat) (f : nat -> R) :
  (j < n)%nat ->
  sum_n n (fun k => f k * (if Nat.eqb k j then 1 else 0)) = f j.
Proof.
  intros Hj. rewrite <- (sum_n_delta_l f Hj).
  apply sum_n_ext. intros k _. rewrite (Nat.eqb_sym k j). lra.
Qed.

Lemma length_mk_vector (n : nat) (f : nat -> R) : length (mk_vector n f) = n.
Proof. unfold mk_vector. rewrite length_map, length_seq. reflexivity. Qed.

Lemma vget_mk_vector (n : nat) (f : nat -> R) (i : nat) :
  (i < n)%nat -> vget (mk_vector n f) i = f i.
Proof.
  intros Hi. unfold vget, mk_vector.
  rewrite (nth_indep _ 0 (f O)) by (rewrite length_map, length_seq; exact Hi).
  rewrite (map_nth f (seq 0 n) O i), seq_nth by exact Hi. reflexivity.
Qed.

Lemma mk_vector_ext (n : nat) (f g : nat -> R) :
  (forall i, (i < n)%nat -> f i = g i) -> mk_vector n f = mk_vector n g.
Proof.
  intros Hfg. unfold mk_vector. apply map_ext_in.
  intros i Hi. apply in_seq in Hi. apply Hfg. lia.
Qed.

Lemma vector_eta (n : nat) (v : vector) :
  length v = n -> v = mk_vector n (vget v).
Proof.
  intros Hn. apply (nth_ext _ _ 0 0).
  - rewrite length_mk_vector. exact Hn.
  - intros i Hi. fold (vget v i). fold (vget (mk_vector n (vget v)) i).
    rewrite vget_mk_vector by lia. reflexivity.
Qed.

Lemma nrows_mk_matrix (m n : nat) (f : nat -> nat -> R) :
  nrows (mk_matrix m n f) = m.
Proof.
  unfold nrows, mk_matrix. rewrite length_map, length_seq. reflexivity.
Qed.

Lemma ncols_mk_matrix (m n : nat) (f : nat -> nat -> R) :
  (0 < m)%nat -> ncols (mk_matrix m n f) = n.
Proof.
  intros Hm. destruct m as [| m]; [lia |].
  unfold ncols, mk_matrix. cbn. rewrite length_map, length_seq. reflexivity.
Qed.

Lemma has_shape_mk_matrix (m n : nat) (f : nat -> nat -> R) :
  has_shape m n (mk_matrix m n f).
Proof.
  split; [apply nrows_mk_matrix |].
  unfold mk_matrix. apply Forall_forall. intros row Hrow.
  apply in_map_iff in Hrow. destruct Hrow as (i & <- & _).
  rewrite length_map, length_seq. reflexivity.
Qed.

Lemma mget_mk_matrix (m n : nat) (f : nat -> nat -> R) (i j : nat) :
  (i < m)%nat -> (j < n)%nat -> mget (mk_matrix m n f) i j = f i j.
Proof.
  intros Hi Hj. unfold mget, mk_matrix.
  rewrite (nth_indep _ [] (map (f O) (seq 0 n)))
    by (rewrite length_map, length_seq; exact Hi).
  rewrite (map_nth (fun i => map (f i) (seq 0 n)) (seq 0 m) O i).
  rewrite seq_nth by exact Hi. cbn.
  fold (vget (mk_vector n (f i)) j). apply vget_mk_vector. exact Hj.
Qed.

Lemma mk_matrix_ext (m n : nat) (f g : nat -> nat -> R) :
  (forall i j, (i < m)%nat -> (j < n)%nat -> f i j = g i j) ->
  mk_matrix m n f = mk_matrix m n g.
Proof.
  intros Hfg. unfold mk_matrix. apply map_ext_in.
  intros i Hi. apply in_seq in Hi. apply map_ext_in.
  intros j Hj. apply in_seq in Hj. apply Hfg; lia.
Qed.

Lemma has_shape_nrows (m n : nat) (A : matrix) :
  has_shape m n A -> nrows A = m.
Proof. intros [Hm _]. exact Hm. Qed.

Lemma has_shape_ncols (m n : nat) (A : matrix) :
  has_shape m n A -> (0 < m)%nat -> ncols A = n.
Proof.
  intros [Hm Hrows] Hpos. unfold ncols.
  destruct A as [| row A]; [cbn in Hm; lia |].
  cbn. apply (Forall_inv Hrows).
Qed.

Lemma has_shape_row (m n : nat) (A : matrix) (i : nat) :
  has_shape m n A -> (i < m)%nat -> length (nth i A []) = n.
Proof.
  intros [Hm Hrows] Hi. rewrite Forall_forall in Hrows.
  apply Hrows. apply nth_In. lia.
Qed.

(** An array is the table of its entries. *)
Lemma matrix_eta (m n : nat) (A : matrix) :
  has_shape m n A -> A = mk_matrix m n (mget A).
Proof.
  intros HA. apply (nth_ext _ _ [] []).
  - rewrite (proj1 HA). symmetry. apply nrows_mk_matrix.
  - intros i Hi. rewrite (proj1 HA) in Hi.
    apply (nth_ext _ _ 0 0).
    + rewrite (has_shape_row HA Hi).
      rewrite (has_shape_row (has_shape_mk_matrix m n (mget A)) Hi).
      reflexivity.
    + intros j Hj. rewrite (has_shape_row HA Hi) in Hj.
      fold (mget A i j). fold (mget (mk_matrix m n (mget A)) i j).
      rewrite mget_mk_matrix by lia. reflexivity.
Qed.

Lemma matrix_ext (m n : nat) (A B : matrix) :
  has_shape m n A -> has_shape m n B ->
  (forall i j, (i < m)%nat -> (j < n)%nat -> mget A i j = mget B i j) ->
  A = B.
Proof.
  intros HA HB Heq.
  rewrite (matrix_eta HA), (matrix_eta HB).
  apply mk_matrix_ext. exact Heq.
Qed.

(** *** Shapes *)

Lemma decell_shape (m n : nat) (At G : matrix) (fuel : nat) :
  forall (B : matrix) (k : nat) (acc : matrix),
    has_shape n m acc -> has_shape n m (decell m n At G B k fuel acc).
Proof.
  induction fuel as [| fuel IH]; intros B k acc Hacc; cbn; [exact Hacc |].
  apply IH. destruct (Req_dec_T _ 0); [exact Hacc |].
  apply has_shape_mk_matrix.
Qed.

(** The pseudo-inverse of an m x n array is an n x m array. *)
Lemma pinv_shape (m n : nat) (A : matrix) :
  has_shape m n A -> (0 < m)%nat -> has_shape n m (pinv A).
Proof.
  intros HA Hm. unfold pinv.
  rewrite (has_shape_nrows HA), (has_shape_ncols HA Hm).
  destruct (Nat.eqb_spec m 3) as [-> | _].
  - apply has_shape_mk_matrix.
  - apply decell_shape. apply has_shape_mk_matrix.
Qed.

Lemma matmul_shaped (m n p : nat) (A B : matrix) :
  has_shape m n A -> has_shape n p B -> (0 < m)%nat -> (0 < n)%nat ->
  matmul A B = Some (mmul m n p A B).
Proof.
  intros HA HB Hm Hn. unfold matmul.
  rewrite (has_shape_nrows HA), (has_shape_ncols HA Hm),
    (has_shape_nrows HB), (has_shape_ncols HB Hn).
  rewrite Nat.eqb_refl. reflexivity.
Qed.

Lemma matvec_shaped (m n : nat) (A : matrix) (v : vector) :
  has_shape m n A -> length v = n -> (0 < m)%nat ->
  matvec A v = Some (mvec m n A v).
Proof.
  intros HA Hv Hm. unfold matvec.
  rewrite (has_shape_nrows HA), (has_shape_ncols HA Hm), Hv.
  rewrite Nat.eqb_refl. reflexivity.
Qed.

Lemma bidx_lt (a i : nat) : (i < a)%nat -> bidx a i = i.
Proof.
  intros Hi. unfold bidx. destruct (Nat.eqb_spec a 1); [lia | reflexivity].
Qed.

Lemma bdim_same (a : nat) : bdim a a = Some a.
Proof. unfold bdim. rewrite Nat.eqb_refl. reflexivity. Qed.

(** On two arrays of one shape nothing is repeated. *)
Lemma broadcast2_shaped (f : R -> R -> R) (m n : nat) (A B : matrix) :
  has_shape m n A -> has_shape m n B -> (0 < m)%nat ->
  broadcast2 f A B =
  Some (mk_matrix m n (fun i j => f (mget A i j) (mget B i j))).
Proof.
  intros HA HB Hm. unfold broadcast2.
  rewrite (has_shape_nrows HA), (has_shape_ncols HA Hm),
    (has_shape_nrows HB), (has_shape_ncols HB Hm), !bdim_same.
  f_equal. apply mk_matrix_ext. intros i j Hi Hj.
  rewrite !bidx_lt by assumption. reflexivity.
Qed.

Lemma broadcast1_shaped (f : R -> R -> R) (n : nat) (u v : vector) :
  length u = n -> length v = n ->
  broadcast1 f u v = Some (mk_vector n (fun i => f (vget u i) (vget v i))).
Proof.
  intros Hu Hv. unfold broadcast1. rewrite Hu, Hv, bdim_same.
  f_equal. apply mk_vector_ext. intros i Hi.
  rewrite !bidx_lt by assumption. reflexivity.
Qed.

Lemma reshape_col_shape (v : vector) : has_shape (length v) 1 (reshape_col v).
Proof.
  unfold reshape_col. split; [apply length_map |].
  apply Forall_forall. intros row Hrow. apply in_map_iff in Hrow.
  destruct Hrow as (x & <- & _). reflexivity.
Qed.

Lemma mget_reshape_col (v : vector) (i : nat) :
  mget (reshape_col v) i 0 = vget v i.
Proof.
  unfold mget, reshape_col, vget. revert i.
  induction v as [| x v IH]; intros [| i]; cbn; auto.
Qed.

(** Flattening a column gives its entries. *)
Lemma flatten_column (m : nat) (f : nat -> nat -> R) :
  flatten (mk_matrix m 1 f) = mk_vector m (fun i => f i O).
Proof.
  unfold flatten, mk_matrix, mk_vector. cbn.
  induction (seq 0 m) as [| i l IH]; cbn; [reflexivity |].
  rewrite IH. reflexivity.
Qed.

Lemma vscale_mk_vector (n : nat) (f : nat -> R) (c : R) :
  vscale (mk_vector n f) c = mk_vector n (fun i => f i * c).
Proof. unfold vscale, mk_vector. rewrite map_map. reflexivity. Qed.

Lemma clip_mk_vector (n : nat) (f : nat -> R) (lo hi : R) :
  clip (mk_vector n f) lo hi = mk_vector n (fun i => clip1 lo hi (f i)).
Proof. unfold clip, mk_vector. rewrite map_map. reflexivity. Qed.

(** *** The resolver on well-formed inputs *)

Lemma joint_candidate_eq (robot : Robot) (q dx : vector) (k0 dt : R) :
  well_formed robot q dx k0 ->
  joint_candidate robot q dx k0 dt =
  Some (mk_vector N_JOINTS (fun i =>
          vget q i
          + joint_velocity (jacobian robot q) (q0dot robot q k0) dx i * dt)).
Proof.
  intros (Hq & Hdx & HJ & Hq0). unfold joint_candidate.
  set (J := jacobian robot q) in *. set (q0d := q0dot robot q k0) in *.
  assert (HJT : has_shape N_JOINTS 3 (pinv J))
    by (apply pinv_shape; [exact HJ | lia]).
  assert (HN : (0 < N_JOINTS)%nat) by (unfold N_JOINTS; lia).
  rewrite (matvec_shaped _ HJT Hdx HN). cbn [bind].
  rewrite (matmul_shaped HJT HJ HN) by lia. cbn [bind].
  rewrite (@broadcast2_shaped Rminus N_JOINTS N_JOINTS)
    by (try apply has_shape_mk_matrix; exact HN).
  cbn [bind]. fold (msub N_JOINTS N_JOINTS (eye N_JOINTS)
                      (mmul N_JOINTS 3 N_JOINTS (pinv J) J)).
  fold (null_projector J).
  rewrite (@matmul_shaped N_JOINTS N_JOINTS 1)
    by (try apply has_shape_mk_matrix; assumption).
  cbn [bind].
  rewrite (@broadcast2_shaped Rplus N_JOINTS 1).
  - cbn [bind]. rewrite flatten_column, vscale_mk_vector.
    rewrite (@broadcast1_shaped Rplus N_JOINTS)
      by (try apply length_mk_vector; exact Hq).
    apply f_equal. apply mk_vector_ext. intros i Hi.
    rewrite vget_mk_vector by exact Hi.
    rewrite mget_reshape_col. reflexivity.
  - pose proof (reshape_col_shape (mvec N_JOINTS 3 (pinv J) dx)) as Hs.
    unfold mvec in Hs at 1. rewrite length_mk_vector in Hs. exact Hs.
  - apply has_shape_mk_matrix.
  - exact HN.
Qed.

Lemma RAD_120_eq : RAD_120 = 2 * PI / 3.
Proof. unfold RAD_120, deg2rad. field. Qed.

Lemma clip1_bounds (lo hi x : R) :
  lo <= hi -> lo <= clip1 lo hi x <= hi.
Proof.
  intros Hle. unfold clip1, Rmin, Rmax.
  destruct (Rle_dec x lo); destruct (Rle_dec _ hi); lra.
Qed.

Lemma clip1_inside (lo hi x : R) : lo <= x <= hi -> clip1 lo hi x = x.
Proof.
  intros Hx. unfold clip1, Rmin, Rmax.
  destruct (Rle_dec x lo); destruct (Rle_dec _ hi); lra.
Qed.

Lemma update_joint_position_eq (robot : Robot) (q dx : vector) (k0 dt : R) :
  well_formed robot q dx k0 ->
  update_joint_position robot q dx k0 dt =
  Some (mk_vector N_JOINTS (fun i =>
          clip1 (- (2 * PI / 3)) (2 * PI / 3)
            (vget q i
             + joint_velocity (jacobian robot q) (q0dot robot q k0) dx i
               * dt))).
Proof.
  intros Hwf. unfold update_joint_position.
  rewrite (joint_candidate_eq dt Hwf). cbn [bind].
  rewrite clip_mk_vector, RAD_120_eq. reflexivity.
Qed.

(** The projector applied to the zero column. *)
Lemma null_velocity_zero (J : matrix) (i : nat) :
  (i < N_JOINTS)%nat -> null_velocity J (mzero N_JOINTS 1) i = 0.
Proof.
  intros Hi. unfold null_velocity, mmul.
  rewrite mget_mk_matrix by (exact Hi || lia).
  rewrite (@sum_n_ext N_JOINTS _ (fun _ => 0)); [apply sum_n_zero |].
  intros k Hk. unfold mzero. rewrite mget_mk_matrix by (exact Hk || lia).
  lra.
Qed.

(** The pseudo-inverse applied to the zero velocity. *)
Lemma task_velocity_zero (J : matrix) (i : nat) :
  (i < N_JOINTS)%nat -> task_velocity J [0; 0; 0] i = 0.
Proof.
  intros Hi. unfold task_velocity, mvec.
  rewrite vget_mk_vector by exact Hi. cbn. lra.
Qed.

(** ** The resolver: C1, C2, C6 *)

(** C2.  On well-formed inputs the resolver returns an array of N numbers;
    component i is the candidate component q[i] + dq[i] * dt, with
    dq = J+ dx + (I - J+ J) q0dot, clamped to [-2 pi / 3, 2 pi / 3]: it
    depends on no other component, and lies in that interval. *)
Theorem update_joint_position_clamped
  (robot : Robot) (q dx : vector) (k0 dt : R) :
  well_formed robot q dx k0 ->
  exists cand out : vector,
    joint_candidate robot q dx k0 dt = Some cand /\
    update_joint_position robot q dx k0 dt = Some out /\
    length cand = N_JOINTS /\
    length out = N_JOINTS /\
    forall i, (i < N_JOINTS)%nat ->
      vget cand i =
      vget q i
      + joint_velocity (jacobian robot q) (q0dot robot q k0) dx i * dt /\
      vget out i = Rmin (Rmax (vget cand i) (- (2 * PI / 3))) (2 * PI / 3) /\
      - (2 * PI / 3) <= vget out i <= 2 * PI / 3.
Proof.
  intros Hwf. eexists _, _.
  split; [apply (joint_candidate_eq dt Hwf) |].
  split; [apply (update_joint_position_eq dt Hwf) |].
  split; [apply length_mk_vector |].
  split; [apply length_mk_vector |].
  intros i Hi. rewrite !vget_mk_vector by exact Hi.
  split; [reflexivity |]. split; [reflexivity |].
  apply clip1_bounds. pose proof PI_RGT_0. lra.
Qed.

(** C1.  With gain 0, the kinematic model returning the zero column for
    that gain, the null-space term is zero in every component and the
    resolver returns q + (J+ dx) dt clamped componentwise to
    [-2 pi / 3, 2 pi / 3]. *)
Theorem update_joint_position_zero_gain
  (robot : Robot) (q dx : vector) (dt : R) :
  well_formed robot q dx 0 ->
  q0dot robot q 0 = mzero N_JOINTS 1 ->
  (forall i, (i < N_JOINTS)%nat ->
     null_velocity (jacobian robot q) (q0dot robot q 0) i = 0) /\
  update_joint_position robot q dx 0 dt =
  Some (mk_vector N_JOINTS (fun i =>
          clip1 (- (2 * PI / 3)) (2 * PI / 3)
            (vget q i + task_velocity (jacobian robot q) dx i * dt))).
Proof.
  intros Hwf Hzero. split.
  - intros i Hi. rewrite Hzero. apply null_velocity_zero. exact Hi.
  - rewrite (update_joint_position_eq dt Hwf). apply f_equal.
    apply mk_vector_ext. intros i Hi.
    unfold joint_velocity. rewrite Hzero, null_velocity_zero by exact Hi.
    rewrite Rplus_0_r. reflexivity.
Qed.

(** C6, as amended.  With zero velocity command, gain 0 and the zero
    column from the kinematic model, the resolver returns q unchanged
    whenever every component of q lies in [-2 pi / 3, 2 pi / 3]. *)
Theorem update_joint_position_zero_command
  (robot : Robot) (q : vector) (dt : R) :
  well_formed robot q [0; 0; 0] 0 ->
  q0dot robot q 0 = mzero N_JOINTS 1 ->
  (forall i, (i < N_JOINTS)%nat ->
     - (2 * PI / 3) <= vget q i <= 2 * PI / 3) ->
  update_joint_position robot q [0; 0; 0] 0 dt = Some q.
Proof.
  intros Hwf Hzero Hrange.
  rewrite (update_joint_position_eq dt Hwf).
  apply f_equal.
  etransitivity; [| symmetry; exact (vector_eta q (proj1 Hwf))].
  apply mk_vector_ext. intros i Hi.
  unfold joint_velocity.
  rewrite Hzero, null_velocity_zero, task_velocity_zero by exact Hi.
  rewrite clip1_inside; [lra |].
  replace (vget q i + (0 + 0) * dt) with (vget q i) by lra.
  apply Hrange. exact Hi.
Qed.

(** ** The zero Jacobian: C7 *)

Lemma mget_mzero (m n i j : nat) : mget (mzero m n) i j = 0.
Proof.
  destruct (lt_dec i m) as [Hi | Hi]; destruct (lt_dec j n) as [Hj | Hj].
  - unfold mzero. apply mget_mk_matrix; assumption.
  - unfold mget, mzero. apply nth_overflow.
    rewrite (has_shape_row (has_shape_mk_matrix m n (fun _ _ => 0)) Hi). lia.
  - unfold mget. rewrite (nth_overflow (mzero m n)).
    + destruct j; reflexivity.
    + fold (nrows (mzero m n)). unfold mzero. rewrite nrows_mk_matrix. lia.
  - unfold mget. rewrite (nth_overflow (mzero m n)).
    + destruct j; reflexivity.
    + fold (nrows (mzero m n)). unfold mzero. rewrite nrows_mk_matrix. lia.
Qed.

Lemma mmul_zero_l (m n p : nat) (B : matrix) :
  mmul m n p (mzero m n) B = mzero m p.
Proof.
  unfold mmul. apply mk_matrix_ext. intros i j _ _.
  rewrite (@sum_n_ext n _ (fun _ => 0)); [apply sum_n_zero |].
  intros k _. rewrite mget_mzero. lra.
Qed.

Lemma trace_mzero (m : nat) : trace m (mzero m m) = 0.
Proof.
  unfold trace. rewrite (@sum_n_ext m _ (fun _ => 0)); [apply sum_n_zero |].
  intros k _. apply mget_mzero.
Qed.

(** With G = 0 every coefficient a_k is zero and the accumulator is never
    replaced. *)
Lemma decell_zero (m n : nat) (At : matrix) (fuel : nat) :
  forall (B : matrix) (k : nat) (acc : matrix),
    decell m n At (mzero m m) B k fuel acc = acc.
Proof.
  induction fuel as [| fuel IH]; intros B k acc; cbn; [reflexivity |].
  rewrite IH, mmul_zero_l, trace_mzero.
  destruct (Req_dec_T (- 0 / INR k) 0) as [_ | Hne]; [reflexivity |].
  exfalso. apply Hne. unfold Rdiv. rewrite Ropp_0. apply Rmult_0_l.
Qed.

(** *** The eigenvalues of a 3 x 3 matrix *)

Lemma rcond_bounds : 0 < rcond < 1.
Proof.
  assert (H : 1 < 10 ^ 15) by (apply Rlt_pow_R1; [lra | lia]).
  unfold rcond, Rdiv. rewrite Rmult_1_l. split.
  - apply Rinv_0_lt_compat. lra.
  - rewrite <- Rinv_1. apply Rinv_lt_contravar; lra.
Qed.

(** A root of (x - a) (x - b) (x - c) that is at least as large as the
    largest of a, b, c is that one. *)
Lemma largest_root (a b c x : R) :
  c <= b -> b <= a -> (x - a) * (x - b) * (x - c) = 0 -> x <= a.
Proof.
  intros Hcb Hba H.
  destruct (Rmult_integral _ _ H) as [H1 | H1]; [| lra].
  destruct (Rmult_integral _ _ H1); lra.
Qed.

Lemma is_spectrum_unique (G : mat3 R) (a b c a' b' c' : R) :
  is_spectrum G a b c -> is_spectrum G a' b' c' ->
  a = a' /\ b = b' /\ c = c'.
Proof.
  intros (Hcb & Hba & H1 & H2 & H3) (Hcb' & Hba' & H1' & H2' & H3').
  rewrite <- H1 in H1'. rewrite <- H2 in H2'. rewrite <- H3 in H3'.
  assert (Ha : a = a').
  { apply Rle_antisym.
    - apply (@largest_root a' b' c' a Hcb' Hba'). nsatz.
    - apply (@largest_root a b c a' Hcb Hba). nsatz. }
  subst a'.
  assert (Hs : b' + c' = b + c) by lra.
  assert (Hp : b' * c' = b * c) by nsatz.
  assert (Hb : b = b').
  { apply Rle_antisym.
    - assert (E : (b - b') * (b - c') = 0) by nsatz.
      destruct (Rmult_integral _ _ E); lra.
    - assert (E : (b' - b) * (b' - c) = 0) by nsatz.
      destruct (Rmult_integral _ _ E); lra. }
  subst b'. repeat split; lra.
Qed.

Lemma spectrum_eq (G : mat3 R) (l1 l2 l3 : R) :
  is_spectrum G l1 l2 l3 -> spectrum G = (l1, l2, l3).
Proof.
  intros H. unfold spectrum.
  pose proof (epsilon_spec (inhabits (0, 0, 0))
                (fun t => is_spectrum G (fst (fst t)) (snd (fst t)) (snd t))
                (ex_intro _ (l1, l2, l3) H)) as Hs.
  destruct (epsilon _ _) as [[a b] c]. cbn [fst snd] in Hs.
  destruct (is_spectrum_unique Hs H) as (-> & -> & ->). reflexivity.
Qed.

Lemma is_spectrum_zero : is_spectrum zero_mat3 0 0 0.
Proof. unfold is_spectrum, trace3, minors3, det3; cbn. repeat split; lra. Qed.

Lemma truncated_inverse_zero : truncated_inverse zero_mat3 = zero_mat3.
Proof.
  unfold truncated_inverse. rewrite (spectrum_eq is_spectrum_zero).
  rewrite sqrt_0, Rmult_0_r.
  destruct (Rlt_dec 0 0) as [H | _]; [lra | reflexivity].
Qed.

Lemma gram3_mzero (n : nat) : gram3 n (mzero 3 n) = zero_mat3.
Proof.
  unfold gram3, zero_mat3.
  assert (H : forall i j,
             sum_n n (fun k => mget (mzero 3 n) i k * mget (mzero 3 n) j k)
             = 0).
  { intros i j. rewrite (@sum_n_ext n _ (fun _ => 0)); [apply sum_n_zero |].
    intros k _. rewrite !mget_mzero. lra. }
  rewrite !H. reflexivity.
Qed.

Lemma mmul_zero_r (m n p : nat) (A : matrix) :
  mmul m n p A (mzero n p) = mzero m p.
Proof.
  unfold mmul. apply mk_matrix_ext. intros i j _ _.
  rewrite (@sum_n_ext n _ (fun _ => 0)); [apply sum_n_zero |].
  intros k _. rewrite mget_mzero. lra.
Qed.

(** The pseudo-inverse of the zero array is the zero array. *)
Lemma pinv_mzero (m n : nat) :
  (0 < m)%nat -> pinv (mzero m n) = mzero n m.
Proof.
  intros Hm. unfold pinv.
  assert (Hr : nrows (mzero m n) = m) by apply nrows_mk_matrix.
  assert (Hc : ncols (mzero m n) = n) by (apply ncols_mk_matrix; exact Hm).
  rewrite Hr, Hc.
  destruct (Nat.eqb_spec m 3) as [-> | _].
  - rewrite gram3_mzero, truncated_inverse_zero.
    change (of_mat3 zero_mat3) with (mzero 3 3). apply mmul_zero_r.
  - rewrite mmul_zero_l. apply decell_zero.
Qed.

(** C7.  On well-formed inputs the resolver returns a result (it raises
    nothing).  When the Jacobian is the zero 3 x N array, its
    pseudo-inverse is the zero N x 3 array, the task term J+ dx is zero,
    the projector I - J+ J is the identity, and the result is
    q + q0dot dt clamped componentwise. *)
Theorem update_joint_position_zero_jacobian
  (robot : Robot) (q dx : vector) (k0 dt : R) :
  well_formed robot q dx k0 ->
  (exists out : vector,
      update_joint_position robot q dx k0 dt = Some out) /\
  (jacobian robot q = mzero 3 N_JOINTS ->
   pinv (jacobian robot q) = mzero N_JOINTS 3 /\
   (forall i, (i < N_JOINTS)%nat ->
      task_velocity (jacobian robot q) dx i = 0) /\
   null_projector (jacobian robot q) = eye N_JOINTS /\
   update_joint_position robot q dx k0 dt =
   Some (mk_vector N_JOINTS (fun i =>
           clip1 (- (2 * PI / 3)) (2 * PI / 3)
             (vget q i + mget (q0dot robot q k0) i 0 * dt)))).
Proof.
  intros Hwf. split.
  { eexists. apply (update_joint_position_eq dt Hwf). }
  intros HJ.
  assert (Hp : pinv (jacobian robot q) = mzero N_JOINTS 3)
    by (rewrite HJ; apply pinv_mzero; lia).
  assert (Htask : forall i, (i < N_JOINTS)%nat ->
                    task_velocity (jacobian robot q) dx i = 0).
  { intros i Hi. unfold task_velocity, mvec.
    rewrite vget_mk_vector by exact Hi.
    rewrite (@sum_n_ext 3 _ (fun _ => 0)); [apply sum_n_zero |].
    intros k _. rewrite Hp, mget_mzero. lra. }
  assert (Hproj : null_projector (jacobian robot q) = eye N_JOINTS).
  { unfold null_projector, msub, eye. apply mk_matrix_ext.
    intros i j Hi Hj. rewrite Hp, mmul_zero_l, mget_mzero.
    rewrite mget_mk_matrix by assumption. lra. }
  repeat split; try assumption.
  rewrite (update_joint_position_eq dt Hwf). apply f_equal.
  apply mk_vector_ext. intros i Hi.
  unfold joint_velocity. rewrite (Htask i Hi).
  unfold null_velocity. rewrite Hproj. unfold mmul.
  rewrite mget_mk_matrix by (exact Hi || lia).
  rewrite (@sum_n_ext N_JOINTS _
             (fun k => (if Nat.eqb i k then 1 else 0)
                       * mget (q0dot robot q k0) k 0)).
  - rewrite (sum_n_delta_l (fun k => mget (q0dot robot q k0) k 0) Hi).
    rewrite Rplus_0_l. reflexivity.
  - intros k Hk. unfold eye. rewrite mget_mk_matrix by assumption.
    reflexivity.
Qed.

(** ** Sample runs of the resolver *)

Lemma unit_jacobian_shape : has_shape 3 N_JOINTS unit_jacobian.
Proof. split; [reflexivity | repeat constructor]. Qed.

Lemma sample_well_formed (q dx : vector) (k0 : R) :
  length q = N_JOINTS -> length dx = 3%nat -> well_formed sample_robot q dx k0.
Proof.
  intros Hq Hdx. split; [exact Hq |]. split; [exact Hdx |]. split.
  - apply unit_jacobian_shape.
  - apply (has_shape_mk_matrix N_JOINTS 1).
Qed.

Lemma singular_well_formed (q dx : vector) (k0 : R) :
  length q = N_JOINTS -> length dx = 3%nat ->
  well_formed singular_robot q dx k0.
Proof.
  intros Hq Hdx. split; [exact Hq |]. split; [exact Hdx |]. split.
  - apply (has_shape_mk_matrix 3 N_JOINTS).
  - apply (has_shape_mk_matrix N_JOINTS 1).
Qed.

(** The sample models return the zero column at gain 0. *)
Lemma sample_q0dot_zero (q : vector) :
  q0dot sample_robot q 0 = mzero N_JOINTS 1.
Proof. cbn [q0dot sample_robot]. apply mk_matrix_ext. intros; lra. Qed.

Lemma update_joint_position_clamped_witness :
  exists out : vector,
    update_joint_position sample_robot q_home dx_sample 0 dt_default =
    Some out /\
    length out = N_JOINTS.
Proof.
  destruct (@update_joint_position_clamped sample_robot q_home dx_sample 0
              dt_default
              (@sample_well_formed q_home dx_sample 0 eq_refl eq_refl))
    as (cand & out & _ & Hout & _ & Hlen & _).
  exists out. split; [exact Hout | exact Hlen].
Defined.

Lemma update_joint_position_zero_gain_witness :
  update_joint_position sample_robot q_home dx_sample 0 dt_default =
  Some (mk_vector N_JOINTS (fun i =>
          clip1 (- (2 * PI / 3)) (2 * PI / 3)
            (vget q_home i + task_velocity unit_jacobian dx_sample i
                             * dt_default))).
Proof.
  exact (proj2 (@update_joint_position_zero_gain sample_robot q_home dx_sample
                  dt_default
                  (@sample_well_formed q_home dx_sample 0 eq_refl eq_refl)
                  (sample_q0dot_zero q_home))).
Defined.

Lemma q_home_in_range (i : nat) :
  (i < N_JOINTS)%nat -> - (2 * PI / 3) <= vget q_home i <= 2 * PI / 3.
Proof.
  intros Hi. pose proof PI_RGT_0.
  unfold N_JOINTS in Hi.
  do 7 (destruct i as [| i]; [cbn; lra |]). lia.
Qed.

Lemma update_joint_position_zero_command_witness :
  update_joint_position sample_robot q_home [0; 0; 0] 0 dt_default =
  Some q_home.
Proof.
  exact (@update_joint_position_zero_command sample_robot q_home dt_default
           (@sample_well_formed q_home [0; 0; 0] 0 eq_refl eq_refl)
           (sample_q0dot_zero q_home) q_home_in_range).
Defined.

(** C6 as stated fails: with zero velocity command, gain 0 and the zero
    column from the kinematic model, a joint vector whose first component
    is 3 rad comes back with first component 2 pi / 3. *)
Lemma zero_command_clamps_q_beyond :
  well_formed sample_robot q_beyond [0; 0; 0] 0 /\
  q0dot sample_robot q_beyond 0 = mzero N_JOINTS 1 /\
  (exists out : vector,
      update_joint_position sample_robot q_beyond [0; 0; 0] 0 dt_default =
      Some out /\
      vget out 0 = 2 * PI / 3) /\
  update_joint_position sample_robot q_beyond [0; 0; 0] 0 dt_default <>
  Some q_beyond.
Proof.
  assert (Hwf : well_formed sample_robot q_beyond [0; 0; 0] 0)
    by (apply sample_well_formed; reflexivity).
  assert (H0 : (0 < N_JOINTS)%nat) by (unfold N_JOINTS; lia).
  assert (Hfirst :
            clip1 (- (2 * PI / 3)) (2 * PI / 3)
              (vget q_beyond 0
               + joint_velocity (jacobian sample_robot q_beyond)
                   (q0dot sample_robot q_beyond 0) [0; 0; 0] 0 * dt_default)
            = 2 * PI / 3).
  { unfold joint_velocity.
    rewrite sample_q0dot_zero, null_velocity_zero, task_velocity_zero
      by exact H0.
    pose proof PI_RGT_0. pose proof PI_4.
    cbn [vget q_beyond nth].
    unfold clip1, Rmin, Rmax.
    destruct (Rle_dec _ (- (2 * PI / 3))); destruct (Rle_dec _ (2 * PI / 3));
      lra. }
  split; [exact Hwf |]. split; [apply sample_q0dot_zero |].
  rewrite (update_joint_position_eq dt_default Hwf).
  split.
  - eexists. split; [reflexivity |].
    rewrite vget_mk_vector by exact H0. exact Hfirst.
  - intros Heq.
    apply (f_equal (fun o => match o with
                             | Some v => vget v 0
                             | None => 0
                             end)) in Heq.
    cbv beta iota in Heq.
    rewrite vget_mk_vector in Heq by exact H0.
    rewrite Hfirst in Heq. cbn in Heq.
    pose proof PI_4. lra.
Qed.

Lemma update_joint_position_zero_jacobian_witness :
  pinv (mzero 3 N_JOINTS) = mzero N_JOINTS 3 /\
  null_projector (mzero 3 N_JOINTS) = eye N_JOINTS /\
  update_joint_position singular_robot q_home dx_sample 1 dt_default =
  Some (mk_vector N_JOINTS (fun i =>
          clip1 (- (2 * PI / 3)) (2 * PI / 3)
            (vget q_home i
             + mget (q0dot singular_robot q_home 1) i 0 * dt_default))).
Proof.
  destruct (proj2 (@update_joint_position_zero_jacobian singular_robot q_home
                     dx_sample 1 dt_default
                     (@singular_well_formed q_home dx_sample 1 eq_refl
                        eq_refl)) eq_refl)
    as (Hp & _ & Hproj & Hout).
  split; [exact Hp |]. split; [exact Hproj | exact Hout].
Defined.

(** ** The driver: C8, C9 *)

(** C8.  Two control cycles that start from the same driver state and
    receive twist commands with the same linear part command the same joint
    positions, whatever the angular parts; so do two cycles that receive
    nothing and start from states that differ in the stored twist only, the
    two twists having the same linear part. *)
Theorem step_ignores_angular (d : SnakeDriver) (t1 t2 : Twist) :
  linear t1 = linear t2 ->
  option_map motors (step d (Some (TwistMsg t1))) =
  option_map motors (step d (Some (TwistMsg t2))) /\
  option_map motors (step (twist_callback d t1) None) =
  option_map motors (step (twist_callback d t2) None).
Proof.
  intros Hlin.
  assert (Hstored :
            option_map motors (step (twist_callback d t1) None) =
            option_map motors (step (twist_callback d t2) None)).
  { unfold step. cbn [spin_once bind].
    cbn [twist_callback target_twist robot gain motors published].
    unfold read_sensors. cbn [twist_callback sensors].
    rewrite Hlin.
    destruct (Nat.leb N_JOINTS (length (sensors d))); [| reflexivity].
    cbn [bind].
    destruct (update_joint_position _ _ _ _ _) as [target |]; [| reflexivity].
    cbn [bind].
    destruct (set_positions (motors d) 0 target) as [ms |]; [| reflexivity].
    cbn [bind]. unfold get_end_effector_pose.
    cbn [with_motors twist_callback end_eff].
    destruct (end_eff d) as [| p00 [| p01 [| p02 [| p03 [| p10 [| p11 [| p12
      [| p13 [| p20 [| p21 [| p22 [| p23 [| p30 [| p31 [| p32 [| p33 [| ? ?]
      ]]]]]]]]]]]]]]]]; reflexivity. }
  split; [exact Hstored | exact Hstored].
Qed.

(** Commanding as many values as there are motors left replaces them. *)
Lemma set_positions_all (values : list R) :
  forall done rest : list R,
    length rest = length values ->
    set_positions (done ++ rest) (length done) values = Some (done ++ values).
Proof.
  induction values as [| value values IH]; intros done rest Hlen.
  - destruct rest; [reflexivity | discriminate].
  - destruct rest as [| x rest]; [discriminate |].
    cbn [set_positions].
    assert (Hlt : Nat.ltb (length done) (length (done ++ x :: rest)) = true).
    { apply Nat.ltb_lt. rewrite length_app. cbn. lia. }
    rewrite Hlt.
    rewrite firstn_app, Nat.sub_diag, firstn_all. cbn [firstn].
    rewrite app_nil_r.
    replace (skipn (S (length done)) (done ++ x :: rest)) with rest.
    + replace (done ++ value :: rest) with ((done ++ [value]) ++ rest)
        by (rewrite <- app_assoc; reflexivity).
      replace (S (length done)) with (length (done ++ [value]))
        by (rewrite length_app; cbn; lia).
      rewrite IH by (cbn in Hlen; lia).
      rewrite <- app_assoc. reflexivity.
    + rewrite skipn_app, skipn_all2 by lia.
      replace (S (length done) - length done)%nat with 1%nat by lia.
      reflexivity.
Qed.

(** A control cycle on a driver with its N motors and N sensors, a pose of
    sixteen numbers and a well-formed kinematic model commands the
    resolver's result for the sensor readings and the linear part of the
    twist. *)
Lemma step_twist_commands (d : SnakeDriver) (t : Twist) :
  length (motors d) = N_JOINTS ->
  length (sensors d) = N_JOINTS ->
  length (end_eff d) = 16%nat ->
  well_formed (robot d) (sensors d)
    [vx (linear t); vy (linear t); vz (linear t)] (gain d) ->
  exists (d' : SnakeDriver) (out : vector),
    step d (Some (TwistMsg t)) = Some d' /\
    update_joint_position (robot d) (sensors d)
      [vx (linear t); vy (linear t); vz (linear t)] (gain d) dt_default =
    Some out /\
    motors d' = out.
Proof.
  intros Hm Hs He Hwf.
  unfold step. cbn [spin_once bind].
  cbn [twist_callback target_twist robot gain motors published].
  unfold read_sensors. cbn [twist_callback sensors].
  rewrite Hs, Nat.leb_refl. cbn [bind].
  rewrite <- Hs, firstn_all.
  rewrite (update_joint_position_eq dt_default Hwf). cbn [bind].
  pose proof (@set_positions_all
                (mk_vector N_JOINTS (fun i =>
                   clip1 (- (2 * PI / 3)) (2 * PI / 3)
                     (vget (sensors d) i
                      + joint_velocity (jacobian (robot d) (sensors d))
                          (q0dot (robot d) (sensors d) (gain d))
                          [vx (linear t); vy (linear t); vz (linear t)] i
                        * dt_default)))
                [] (motors d)) as Hset.
  cbn [app length] in Hset.
  rewrite Hset by (rewrite length_mk_vector; exact Hm).
  cbn [bind]. unfold get_end_effector_pose.
  cbn [with_motors twist_callback end_eff].
  destruct (end_eff d) as [| p00 [| p01 [| p02 [| p03 [| p10 [| p11 [| p12
    [| p13 [| p20 [| p21 [| p22 [| p23 [| p30 [| p31 [| p32 [| p33 [| ? ?]
    ]]]]]]]]]]]]]]]]; try discriminate He.
  cbn [bind]. eexists _, _.
  split; [reflexivity |]. split; reflexivity.
Qed.

Lemma step_ignores_angular_witness :
  exists ms : list R,
    option_map motors (step sample_driver (Some (TwistMsg twist_a))) =
    Some ms /\
    option_map motors (step sample_driver (Some (TwistMsg twist_b))) =
    Some ms.
Proof.
  destruct (@step_twist_commands sample_driver twist_a eq_refl eq_refl
              eq_refl
              (@sample_well_formed q_home [1 / 100; 0; 0] 0 eq_refl eq_refl))
    as (d' & out & Hstep & _ & Hout).
  exists out.
  rewrite <- (proj1 (@step_ignores_angular sample_driver twist_a twist_b
                       eq_refl)).
  rewrite Hstep. cbn [option_map]. rewrite Hout. split; reflexivity.
Defined.

(** The loop of [delay_simulation 1] covers more than 1000 ms minus one
    time step and at most 1000 ms. *)
Lemma delay_one_second (ts : R) :
  0 < ts ->
  1000 - ts < INR (Z.to_nat (int_of_float (1000 * 1 / ts))) * ts <= 1000.
Proof.
  intros Hts. unfold int_of_float.
  assert (Hx : 0 < 1000 * 1 / ts).
  { unfold Rdiv. apply Rmult_lt_0_compat; [lra |].
    apply Rinv_0_lt_compat. exact Hts. }
  destruct (Rle_dec 0 (1000 * 1 / ts)) as [_ | Hneg]; [| lra].
  pose proof (Zfloor_bound (1000 * 1 / ts)) as [Hlo Hhi].
  assert (Hnn : (0 <= Zfloor (1000 * 1 / ts))%Z)
    by (apply Zfloor_lub; cbn; lra).
  rewrite INR_IZR_INZ, Z2Nat.id by exact Hnn.
  set (n := IZR (Zfloor (1000 * 1 / ts))) in *.
  assert (Hmul : 1000 * 1 / ts * ts = 1000) by (field; lra).
  split.
  - assert ((n + 1) * ts > 1000 * 1 / ts * ts)
      by (apply Rmult_gt_compat_r; lra).
    lra.
  - assert (n * ts <= 1000 * 1 / ts * ts)
      by (apply Rmult_le_compat_r; lra).
    lra.
Qed.

(** C9.  An initialization request with N angles, on a driver with its N
    motors and a positive simulation time step, is answered with
    [success = True]; each motor is commanded to the requested angle as it
    is, without clamping; and the simulation is stepped for more than
    1000 ms minus one time step and at most 1000 ms in between. *)
Theorem init_joint_state_callback_success
  (d : SnakeDriver) (joint_state : list R) :
  length (motors d) = N_JOINTS ->
  length joint_state = N_JOINTS ->
  0 < basic_time_step d ->
  exists d' : SnakeDriver,
    init_joint_state_callback d joint_state =
    Some (d', {| success := true |}) /\
    motors d' = joint_state /\
    (sim_steps d <= sim_steps d')%nat /\
    1000 - basic_time_step d
    < INR (sim_steps d' - sim_steps d) * basic_time_step d <= 1000.
Proof.
  intros Hm Hjs Hts. unfold init_joint_state_callback.
  pose proof (@set_positions_all joint_state [] (motors d)) as Hset.
  cbn [app length] in Hset. rewrite Hset by lia. cbn [bind].
  unfold delay_simulation. cbn [with_motors basic_time_step sim_steps].
  destruct (Req_dec_T (basic_time_step d) 0) as [Hz | _]; [lra |].
  cbn [bind]. eexists. split; [reflexivity |].
  cbn [with_sim_steps motors sim_steps].
  split; [reflexivity |]. split; [lia |].
  replace (sim_steps d
           + Z.to_nat (int_of_float (1000 * 1 / basic_time_step d))
           - sim_steps d)%nat
    with (Z.to_nat (int_of_float (1000 * 1 / basic_time_step d))) by lia.
  apply delay_one_second. exact Hts.
Qed.

Lemma init_joint_state_callback_success_witness :
  exists d' : SnakeDriver,
    init_joint_state_callback sample_driver q_beyond =
    Some (d', {| success := true |}) /\
    motors d' = q_beyond.
Proof.
  destruct (@init_joint_state_callback_success sample_driver q_beyond
              eq_refl eq_refl) as (d' & Hcall & Hmotors & _).
  - cbn. lra.
  - exists d'. split; [exact Hcall | exact Hmotors].
Defined.

(** ** The pseudo-inverse of a three-row array *)

(** *** 3 x 3 algebra *)

Ltac mat3_ring :=
  repeat match goal with x : mat3 R |- _ => destruct x end;
  cbv [mul3 add3 scale3 transpose3 identity3 zero_mat3 shift3 adj3 trace3
       det3 minors3 minus_scalar3 r00 r01 r02 r10 r11 r12 r20 r21 r22];
  try (f_equal; ring).

Lemma mul3_1_r (x : mat3 R) : mul3 x identity3 = x.
Proof. mat3_ring. Qed.

Lemma mul3_1_l (x : mat3 R) : mul3 identity3 x = x.
Proof. mat3_ring. Qed.

Lemma mul3_0_r (x : mat3 R) : mul3 x zero_mat3 = zero_mat3.
Proof. mat3_ring. Qed.

Lemma mul3_0_l (x : mat3 R) : mul3 zero_mat3 x = zero_mat3.
Proof. mat3_ring. Qed.

Lemma mul3_scale3_l (k : R) (x y : mat3 R) :
  mul3 (scale3 k x) y = scale3 k (mul3 x y).
Proof. mat3_ring. Qed.

Lemma mul3_scale3_r (k : R) (x y : mat3 R) :
  mul3 x (scale3 k y) = scale3 k (mul3 x y).
Proof. mat3_ring. Qed.

Lemma scale3_scale3 (k l : R) (x : mat3 R) :
  scale3 k (scale3 l x) = scale3 (k * l) x.
Proof. mat3_ring. Qed.

Lemma scale3_1 (x : mat3 R) : scale3 1 x = x.
Proof. mat3_ring. Qed.

Lemma mul3_adj3 (G : mat3 R) : mul3 G (adj3 G) = scale3 (det3 G) identity3.
Proof. mat3_ring. Qed.

Lemma adj3_mul3 (G : mat3 R) : mul3 (adj3 G) G = scale3 (det3 G) identity3.
Proof. mat3_ring. Qed.

Lemma shift3_commute (G : mat3 R) : mul3 G (shift3 G) = mul3 (shift3 G) G.
Proof. mat3_ring. Qed.

(** The Cayley-Hamilton identity G^3 - (trace G) G^2 + minors G = (det G) I,
    with G^2 - (trace G) G factored out. *)
Lemma cayley_hamilton_shift (G : mat3 R) :
  mul3 (mul3 G (shift3 G)) G =
  add3 (scale3 (- minors3 G) G) (scale3 (det3 G) identity3).
Proof. mat3_ring. Qed.

Ltac sym3_destruct G H :=
  destruct G as [? ? ? ? ? ? ? ? ?];
  cbv [symmetric3 r00 r01 r02 r10 r11 r12 r20 r21 r22] in H;
  destruct H as (-> & -> & ->).

Ltac sym3_entries :=
  cbv [symmetric3 shift3 adj3 add3 scale3 identity3 trace3
       r00 r01 r02 r10 r11 r12 r20 r21 r22];
  repeat split; ring.

Lemma transpose3_sym (G : mat3 R) : symmetric3 G -> transpose3 G = G.
Proof. intros H. sym3_destruct G H. reflexivity. Qed.

Lemma shift3_sym (G : mat3 R) : symmetric3 G -> symmetric3 (shift3 G).
Proof. intros H. sym3_destruct G H. sym3_entries. Qed.

Lemma adj3_sym (G : mat3 R) : symmetric3 G -> symmetric3 (adj3 G).
Proof. intros H. sym3_destruct G H. sym3_entries. Qed.

Lemma scale3_sym (k : R) (G : mat3 R) :
  symmetric3 G -> symmetric3 (scale3 k G).
Proof. intros H. sym3_destruct G H. sym3_entries. Qed.

(** With trace a + b and principal minors a b, (G - a I) (G - b I) is the
    adjugate of G. *)
Lemma minus_scalar3_adj3 (G : mat3 R) (a b : R) :
  a + b = trace3 G -> a * b = minors3 G ->
  mul3 (minus_scalar3 G a) (minus_scalar3 G b) = adj3 G.
Proof.
  intros Ht Hm.
  transitivity (add3 (add3 (mul3 G G) (scale3 (- (a + b)) G))
                  (scale3 (a * b) identity3)); [mat3_ring |].
  rewrite Ht, Hm. mat3_ring.
Qed.

Lemma minus_scalar3_0 (G : mat3 R) : minus_scalar3 G 0 = G.
Proof. mat3_ring. Qed.

Lemma transpose3_mul3 (x y : mat3 R) :
  transpose3 (mul3 x y) = mul3 (transpose3 y) (transpose3 x).
Proof. mat3_ring. Qed.

Lemma mul3_assoc (x y z : mat3 R) :
  mul3 (mul3 x y) z = mul3 x (mul3 y z).
Proof. mat3_ring. Qed.

Lemma symmetric3_transpose3 (x : mat3 R) :
  transpose3 x = x -> symmetric3 x.
Proof.
  destruct x. cbv [transpose3 symmetric3 r00 r01 r02 r10 r11 r12 r20 r21 r22].
  intros H. injection H as H1 H2 H3 H4 H5 H6. repeat split; congruence.
Qed.

(** The product of two commuting symmetric matrices is symmetric. *)
Lemma mul3_sym (x y : mat3 R) :
  symmetric3 x -> symmetric3 y -> mul3 x y = mul3 y x ->
  symmetric3 (mul3 x y).
Proof.
  intros Hx Hy Hc. apply symmetric3_transpose3.
  rewrite transpose3_mul3, (transpose3_sym Hx), (transpose3_sym Hy).
  symmetry. exact Hc.
Qed.


(** A weighted sum of six squares is zero only when each of them is. *)
Lemma six_squares (x y z u v w : R) :
  x * x + 2 * (y * y) + 2 * (z * z) + u * u + 2 * (v * v) + w * w = 0 ->
  x = 0 /\ y = 0 /\ z = 0 /\ u = 0 /\ v = 0 /\ w = 0.
Proof.
  intros H.
  pose proof (Rle_0_sqr x). pose proof (Rle_0_sqr y). pose proof (Rle_0_sqr z).
  pose proof (Rle_0_sqr u). pose proof (Rle_0_sqr v). pose proof (Rle_0_sqr w).
  unfold Rsqr in *.
  repeat split; apply Rsqr_0_uniq; unfold Rsqr; lra.
Qed.

(** Rank one: when the principal minors and the determinant of a symmetric
    matrix vanish, G^2 = (trace G) G; the squares of the entries of
    G^2 - (trace G) G add up to 2 minors^2 - 2 det trace. *)
Lemma rank_one_square (G : mat3 R) :
  symmetric3 G -> minors3 G = 0 -> det3 G = 0 ->
  mul3 G G = scale3 (trace3 G) G.
Proof.
  intros H H1 H0. destruct G as [a b c b' d e c' e' f].
  cbv [symmetric3 r00 r01 r02 r10 r11 r12 r20 r21 r22] in H.
  destruct H as (-> & -> & ->).
  cbv [minors3 det3 trace3 mul3 scale3
       r00 r01 r02 r10 r11 r12 r20 r21 r22] in *.
  set (m := a * d - b * b + (a * f - c * c) + (d * f - e * e)) in *.
  set (dt := a * (d * f - e * e) - b * (b * f - e * c)
             + c * (b * e - d * c)) in *.
  destruct (@six_squares (a * a + b * b + c * c - (a + d + f) * a)
              (a * b + b * d + c * e - (a + d + f) * b)
              (a * c + b * e + c * f - (a + d + f) * c)
              (b * b + d * d + e * e - (a + d + f) * d)
              (b * c + d * e + e * f - (a + d + f) * e)
              (c * c + e * e + f * f - (a + d + f) * f))
    as (E1 & E2 & E3 & E4 & E5 & E6).
  { transitivity (2 * m * m - 2 * dt * (a + d + f));
      [unfold m, dt; ring | rewrite H1, H0; ring]. }
  f_equal; lra.
Qed.

(** Rank zero: when the trace and the principal minors of a symmetric
    matrix vanish, so does the matrix; the squares of its entries add up to
    trace^2 - 2 minors. *)
Lemma rank_zero (G : mat3 R) :
  symmetric3 G -> trace3 G = 0 -> minors3 G = 0 -> G = zero_mat3.
Proof.
  intros H H2 H1. destruct G as [a b c b' d e c' e' f].
  cbv [symmetric3 r00 r01 r02 r10 r11 r12 r20 r21 r22] in H.
  destruct H as (-> & -> & ->).
  cbv [minors3 trace3 zero_mat3 r00 r01 r02 r10 r11 r12 r20 r21 r22] in *.
  set (m := a * d - b * b + (a * f - c * c) + (d * f - e * e)) in *.
  destruct (@six_squares a b c d e f) as (E1 & E2 & E3 & E4 & E5 & E6).
  { transitivity ((a + d + f) * (a + d + f) - 2 * m);
      [unfold m; ring | rewrite H1, H2; ring]. }
  subst. reflexivity.
Qed.


(** The inverse on the range of a symmetric G of rank two (det G = 0,
    principal minors m <> 0): with P = adj G / m the projector on the kernel,
    M = (I - P) ((trace G) I - G) / m. *)
Lemma rank_two_inverse (G : mat3 R) (t m : R) :
  symmetric3 G -> t = trace3 G -> m = minors3 G -> det3 G = 0 -> m <> 0 ->
  let M := mul3 (add3 identity3 (scale3 (- 1) (scale3 (/ m) (adj3 G))))
             (scale3 (/ m) (add3 (scale3 t identity3) (scale3 (- 1) G))) in
  symmetric3 M /\ mul3 G M = mul3 M G /\ mul3 (mul3 G M) G = G.
Proof.
  intros Hsym Ht Hm Hd Hm0 M.
  assert (HGM : mul3 G M = scale3 (- / m) (mul3 G (shift3 G))).
  { unfold M. rewrite <- mul3_assoc.
    replace (mul3 G (add3 identity3 (scale3 (- 1) (scale3 (/ m) (adj3 G)))))
      with G.
    - rewrite mul3_scale3_r. subst t. clear. mat3_ring.
    - transitivity (add3 G (scale3 (- / m) (mul3 G (adj3 G)))).
      + rewrite mul3_adj3, Hd. clear. mat3_ring.
      + clear. mat3_ring. }
  assert (HMG : mul3 M G = scale3 (- / m) (mul3 G (shift3 G))).
  { unfold M. rewrite mul3_assoc.
    replace (mul3 (scale3 (/ m) (add3 (scale3 t identity3) (scale3 (- 1) G))) G)
      with (mul3 G (scale3 (/ m) (add3 (scale3 t identity3) (scale3 (- 1) G))))
      by (clear; mat3_ring).
    rewrite <- mul3_assoc.
    replace (mul3 (add3 identity3 (scale3 (- 1) (scale3 (/ m) (adj3 G)))) G)
      with G.
    - rewrite mul3_scale3_r. subst t. clear. mat3_ring.
    - transitivity (add3 G (scale3 (- / m) (mul3 (adj3 G) G))).
      + rewrite adj3_mul3, Hd. clear. mat3_ring.
      + clear. mat3_ring. }
  split; [| split].
  - unfold M. apply mul3_sym.
    + clear - Hsym. sym3_destruct G Hsym. sym3_entries.
    + clear - Hsym. sym3_destruct G Hsym. sym3_entries.
    + clear. mat3_ring.
  - rewrite HGM, HMG. reflexivity.
  - rewrite HGM, mul3_scale3_l, cayley_hamilton_shift, Hd, <- Hm.
    destruct G; cbv [scale3 add3 identity3 r00 r01 r02 r10 r11 r12 r20 r21 r22].
    f_equal; field; exact Hm0.
Qed.

Lemma sqrt_pos_inv (x : R) : 0 < sqrt x -> 0 < x.
Proof.
  intros H. destruct (Rle_or_lt x 0) as [Hx | Hx]; [| exact Hx].
  rewrite (sqrt_neg_0 x Hx) in H. lra.
Qed.

Lemma cutoff_nonneg (l : R) : 0 <= rcond * sqrt l.
Proof.
  apply Rmult_le_pos; [pose proof rcond_bounds; lra | apply sqrt_pos].
Qed.

(** Where no singular value but a zero one is dropped, [truncated_inverse]
    is symmetric, commutes with [G], and [G M G = G]. *)
Lemma truncated_inverse_spec (G : mat3 R) (l1 l2 l3 : R) :
  symmetric3 G -> is_spectrum G l1 l2 l3 -> drops_nothing l1 l2 l3 ->
  symmetric3 (truncated_inverse G) /\
  mul3 G (truncated_inverse G) = mul3 (truncated_inverse G) G /\
  mul3 (mul3 G (truncated_inverse G)) G = G.
Proof.
  intros Hsym Hs (K1 & K2 & K3).
  unfold truncated_inverse. rewrite (spectrum_eq Hs).
  destruct Hs as (H32 & H21 & Ht & Hm & Hd).
  pose proof (cutoff_nonneg l1) as Hc.
  destruct (Rlt_dec (rcond * sqrt l1) (sqrt l3)) as [C3 | C3].
  { (* the inverse *)
    assert (P3 : 0 < l3) by (apply sqrt_pos_inv; lra).
    assert (Hdet : 0 < det3 G).
    { rewrite <- Hd. repeat apply Rmult_lt_0_compat; lra. }
    split; [apply scale3_sym, adj3_sym, Hsym |].
    rewrite mul3_scale3_r, mul3_scale3_l, mul3_adj3, adj3_mul3.
    split; [reflexivity |].
    rewrite !mul3_scale3_l, mul3_1_l, scale3_scale3.
    transitivity (scale3 1 G); [f_equal; field; lra | apply scale3_1]. }
  assert (Z3 : l3 = 0) by (destruct K3; [assumption | contradiction]).
  subst l3.
  destruct (Rlt_dec (rcond * sqrt l1) (sqrt l2)) as [C2 | C2].
  { (* rank two *)
    assert (P2 : 0 < l2) by (apply sqrt_pos_inv; lra).
    assert (Hm' : l1 * l2 = minors3 G) by lra.
    assert (Ht' : l1 + l2 = trace3 G) by lra.
    assert (Hd' : det3 G = 0) by lra.
    assert (Hne : l1 * l2 <> 0) by (apply Rgt_not_eq, Rmult_lt_0_compat; lra).
    unfold eigen_projector3. rewrite (minus_scalar3_adj3 Ht' Hm').
    replace ((0 - l1) * (0 - l2)) with (l1 * l2) by ring.
    apply rank_two_inverse; (assumption || (symmetry; assumption)). }
  assert (Z2 : l2 = 0) by (destruct K2; [assumption | contradiction]).
  subst l2.
  assert (Hm' : minors3 G = 0) by lra.
  assert (Ht' : trace3 G = l1) by lra.
  assert (Hd' : det3 G = 0) by lra.
  destruct (Rlt_dec (rcond * sqrt l1) (sqrt l1)) as [C1 | C1].
  { (* rank one *)
    assert (P1 : 0 < l1).
    { apply sqrt_pos_inv. lra. }
    pose proof (rank_one_square Hsym Hm' Hd') as Hsq. rewrite Ht' in Hsq.
    unfold eigen_projector3. rewrite minus_scalar3_0, Hsq, !scale3_scale3.
    replace (/ l1 * (/ ((l1 - 0) * (l1 - 0)) * l1)) with (/ (l1 * l1))
      by (field; lra).
    split; [apply scale3_sym, Hsym |].
    rewrite mul3_scale3_r, !mul3_scale3_l.
    split; [reflexivity |].
    rewrite Hsq, mul3_scale3_l, Hsq, !scale3_scale3.
    transitivity (scale3 1 G); [f_equal; field; lra | apply scale3_1]. }
  (* rank zero *)
  assert (Z1 : l1 = 0) by (destruct K1; [assumption | contradiction]).
  assert (Ht0 : trace3 G = 0) by lra.
  rewrite (rank_zero Hsym Ht0 Hm'), !mul3_0_l.
  split; [repeat split; reflexivity |]. split; reflexivity.
Qed.

(** *** The eigenvalues of a symmetric matrix are real *)

(** A monic cubic has a real root. *)
Lemma cubic_root (p q r : R) :
  exists x : R, x * x * x + p * (x * x) + q * x + r = 0.
Proof.
  set (f := fun x : R => x * x * x + p * (x * x) + q * x + r).
  assert (Hc : continuity f).
  { apply derivable_continuous. unfold f. reg. }
  set (B := 1 + Rabs p + Rabs q + Rabs r).
  pose proof (Rabs_pos p) as Hp0. pose proof (Rabs_pos q) as Hq0.
  pose proof (Rabs_pos r) as Hr0.
  pose proof (Rle_abs p) as Hp1. pose proof (Rle_abs q) as Hq1.
  pose proof (Rle_abs r) as Hr1.
  pose proof (Rle_abs (- p)) as Hp2. pose proof (Rle_abs (- q)) as Hq2.
  pose proof (Rle_abs (- r)) as Hr2.
  rewrite Rabs_Ropp in Hp2, Hq2, Hr2.
  assert (HB : 1 <= B) by (unfold B; lra).
  assert (HB2 : B <= B * B) by nra.
  assert (Hpos : 0 < f B).
  { unfold f.
    assert (0 <= (Rabs p + p) * (B * B)) by (apply Rmult_le_pos; nra).
    assert (0 <= (Rabs q + q) * B) by (apply Rmult_le_pos; nra).
    assert (0 <= (Rabs q) * (B * B - B)) by (apply Rmult_le_pos; nra).
    assert (0 <= (Rabs r) * (B * B - 1)) by (apply Rmult_le_pos; nra).
    assert (E : B * B * B = B * B + (Rabs p + Rabs q + Rabs r) * (B * B))
      by (unfold B; ring).
    nra. }
  assert (Hneg : f (- B) < 0).
  { unfold f.
    assert (0 <= (Rabs p - p) * (B * B)) by (apply Rmult_le_pos; nra).
    assert (0 <= (Rabs q + q) * B) by (apply Rmult_le_pos; nra).
    assert (0 <= (Rabs q) * (B * B - B)) by (apply Rmult_le_pos; nra).
    assert (0 <= (Rabs r) * (B * B - 1)) by (apply Rmult_le_pos; nra).
    assert (E : B * B * B = B * B + (Rabs p + Rabs q + Rabs r) * (B * B))
      by (unfold B; ring).
    nra. }
  destruct (IVT f (- B) B Hc ltac:(lra) Hneg Hpos) as (x & _ & Hx).
  exists x. exact Hx.
Qed.

(** A symmetric matrix annihilated by (G - l I) (G^2 + b G + c I), where
    x^2 + b x + c has no real root, is l I: G^2 + b G + c I is
    (G + b/2 I)^2 + (c - b^2/4) I, positive definite. *)
Lemma definite_factor (G : mat3 R) (l b c : R) :
  symmetric3 G -> b * b - 4 * c < 0 ->
  mul3 (minus_scalar3 G l)
    (add3 (add3 (mul3 G G) (scale3 b G)) (scale3 c identity3)) = zero_mat3 ->
  G = scale3 l identity3.
Proof.
  intros Hsym Hneg HSN.
  assert (H : mul3 (mul3 (minus_scalar3 G l)
                      (add3 (add3 (mul3 G G) (scale3 b G))
                         (scale3 c identity3)))
                (minus_scalar3 G l) = zero_mat3)
    by (rewrite HSN; apply mul3_0_l).
  clear HSN.
  destruct G as [g00 g01 g02 g10 g11 g12 g20 g21 g22].
  cbv [symmetric3 r00 r01 r02 r10 r11 r12 r20 r21 r22] in Hsym.
  destruct Hsym as (-> & -> & ->).
  cbv [mul3 add3 scale3 identity3 zero_mat3 minus_scalar3
       r00 r01 r02 r10 r11 r12 r20 r21 r22] in *.
  injection H as H00 _ _ _ H11 _ _ _ H22.
  set (q := c - b * b / 4) in *.
  assert (Hq : 0 < q) by (unfold q; lra).
  set (s00 := g00 - l). set (s11 := g11 - l). set (s22 := g22 - l).
  set (h := b / 2).
  (* the rows of T = (G - l I) (G + b/2 I) *)
  set (t00 := s00 * (g00 + h) + g01 * g01 + g02 * g02).
  set (t01 := s00 * g01 + g01 * (g11 + h) + g02 * g12).
  set (t02 := s00 * g02 + g01 * g12 + g02 * (g22 + h)).
  set (t10 := g01 * (g00 + h) + s11 * g01 + g12 * g02).
  set (t11 := g01 * g01 + s11 * (g11 + h) + g12 * g12).
  set (t12 := g01 * g02 + s11 * g12 + g12 * (g22 + h)).
  set (t20 := g02 * (g00 + h) + g12 * g01 + s22 * g02).
  set (t21 := g02 * g01 + g12 * (g11 + h) + s22 * g12).
  set (t22 := g02 * g02 + g12 * g12 + s22 * (g22 + h)).
  assert (E0 : t00 * t00 + t01 * t01 + t02 * t02
               + q * (s00 * s00 + g01 * g01 + g02 * g02) = 0).
  { rewrite <- H00. unfold t00, t01, t02, s00, h, q. field. }
  assert (E1 : t10 * t10 + t11 * t11 + t12 * t12
               + q * (g01 * g01 + s11 * s11 + g12 * g12) = 0).
  { rewrite <- H11. unfold t10, t11, t12, s11, h, q. field. }
  assert (E2 : t20 * t20 + t21 * t21 + t22 * t22
               + q * (g02 * g02 + g12 * g12 + s22 * s22) = 0).
  { rewrite <- H22. unfold t20, t21, t22, s22, h, q. field. }
  clearbody t00 t01 t02 t10 t11 t12 t20 t21 t22.
  clear H00 H11 H22.
  assert (Z0 : s00 * s00 + g01 * g01 + g02 * g02 = 0).
  { pose proof (Rle_0_sqr t00). pose proof (Rle_0_sqr t01).
    pose proof (Rle_0_sqr t02). pose proof (Rle_0_sqr s00).
    pose proof (Rle_0_sqr g01). pose proof (Rle_0_sqr g02).
    unfold Rsqr in *. nra. }
  assert (Z1 : g01 * g01 + s11 * s11 + g12 * g12 = 0).
  { pose proof (Rle_0_sqr t10). pose proof (Rle_0_sqr t11).
    pose proof (Rle_0_sqr t12). pose proof (Rle_0_sqr s11).
    pose proof (Rle_0_sqr g01). pose proof (Rle_0_sqr g12).
    unfold Rsqr in *. nra. }
  assert (Z2 : g02 * g02 + g12 * g12 + s22 * s22 = 0).
  { pose proof (Rle_0_sqr t20). pose proof (Rle_0_sqr t21).
    pose proof (Rle_0_sqr t22). pose proof (Rle_0_sqr s22).
    pose proof (Rle_0_sqr g02). pose proof (Rle_0_sqr g12).
    unfold Rsqr in *. nra. }
  assert (s00 = 0 /\ g01 = 0 /\ g02 = 0) as (A0 & A1 & A2).
  { pose proof (Rle_0_sqr s00). pose proof (Rle_0_sqr g01).
    pose proof (Rle_0_sqr g02). unfold Rsqr in *.
    repeat split; apply Rsqr_0_uniq; unfold Rsqr; lra. }
  assert (s11 = 0 /\ g12 = 0) as (A3 & A4).
  { pose proof (Rle_0_sqr s11). pose proof (Rle_0_sqr g01).
    pose proof (Rle_0_sqr g12). unfold Rsqr in *.
    repeat split; apply Rsqr_0_uniq; unfold Rsqr; lra. }
  assert (A5 : s22 = 0).
  { pose proof (Rle_0_sqr s22). pose proof (Rle_0_sqr g02).
    pose proof (Rle_0_sqr g12). unfold Rsqr in *.
    apply Rsqr_0_uniq; unfold Rsqr; lra. }
  unfold s00, s11, s22 in *.
  f_equal; lra.
Qed.

(** The characteristic polynomial of a symmetric matrix, divided by x - l
    for a root l, leaves a quadratic with a non-negative discriminant. *)
Lemma quadratic_factor_real (G : mat3 R) (l : R) :
  symmetric3 G ->
  l * l * l + - trace3 G * (l * l) + minors3 G * l + - det3 G = 0 ->
  0 <= (l - trace3 G) * (l - trace3 G)
       - 4 * (minors3 G + l * (l - trace3 G)).
Proof.
  intros Hsym Hroot.
  set (b := l - trace3 G). set (c := minors3 G + l * b).
  destruct (Rle_or_lt 0 (b * b - 4 * c)) as [H | Hneg]; [exact H | exfalso].
  assert (HSN : mul3 (minus_scalar3 G l)
                  (add3 (add3 (mul3 G G) (scale3 b G)) (scale3 c identity3))
                = zero_mat3).
  { unfold c, b. clear - Hroot. destruct G.
    cbv [mul3 add3 scale3 identity3 zero_mat3 minus_scalar3 trace3 minors3
         det3 r00 r01 r02 r10 r11 r12 r20 r21 r22] in *.
    f_equal; (ring || lra). }
  pose proof (definite_factor Hsym Hneg HSN) as HG.
  unfold c, b in Hneg. rewrite HG in Hneg.
  cbv [scale3 identity3 trace3 minors3 r00 r01 r02 r10 r11 r12 r20 r21 r22]
    in Hneg.
  nra.
Qed.

(** Three numbers in decreasing order. *)
Lemma sorted_spectrum (G : mat3 R) (x y z : R) :
  x + y + z = trace3 G ->
  x * y + x * z + y * z = minors3 G ->
  x * y * z = det3 G ->
  exists l1 l2 l3 : R, is_spectrum G l1 l2 l3.
Proof.
  intros H1 H2 H3. unfold is_spectrum.
  destruct (Rle_dec x y), (Rle_dec y z), (Rle_dec x z).
  - exists z, y, x. repeat split; lra || (rewrite <- ?H2, <- ?H3; ring).
  - exists z, y, x. repeat split; lra || (rewrite <- ?H2, <- ?H3; ring).
  - exists y, z, x. repeat split; lra || (rewrite <- ?H2, <- ?H3; ring).
  - exists y, x, z. repeat split; lra || (rewrite <- ?H2, <- ?H3; ring).
  - exists z, x, y. repeat split; lra || (rewrite <- ?H2, <- ?H3; ring).
  - exists x, z, y. repeat split; lra || (rewrite <- ?H2, <- ?H3; ring).
  - exists x, y, z. repeat split; lra || (rewrite <- ?H2, <- ?H3; ring).
  - exists x, y, z. repeat split; lra || (rewrite <- ?H2, <- ?H3; ring).
Qed.

(** A symmetric 3 x 3 matrix has three real eigenvalues. *)
Lemma spectrum_exists (G : mat3 R) :
  symmetric3 G -> exists l1 l2 l3 : R, is_spectrum G l1 l2 l3.
Proof.
  intros Hsym.
  destruct (cubic_root (- trace3 G) (minors3 G) (- det3 G)) as (l & Hl).
  pose proof (quadratic_factor_real Hsym Hl) as HD.
  set (b := l - trace3 G) in *. set (c := minors3 G + l * b) in *.
  pose proof (sqrt_sqrt _ HD) as Hs.
  set (s := sqrt (b * b - 4 * c)) in *.
  apply (@sorted_spectrum G l ((- b + s) / 2) ((- b - s) / 2)).
  - unfold b. field.
  - transitivity (l * - b + (b * b - s * s) / 4); [field |].
    rewrite Hs. unfold c. field.
  - transitivity (l * ((b * b - s * s) / 4)); [field |].
    rewrite Hs. unfold c, b. lra.
Qed.

(** [spectrum] gives the eigenvalues of a symmetric matrix. *)
Lemma spectrum_spec (G : mat3 R) :
  symmetric3 G ->
  is_spectrum G (fst (fst (spectrum G))) (snd (fst (spectrum G)))
    (snd (spectrum G)).
Proof.
  intros Hsym. destruct (spectrum_exists Hsym) as (l1 & l2 & l3 & H).
  rewrite (spectrum_eq H). exact H.
Qed.

(** *** From arrays to 3 x 3 matrices *)

Ltac as_mat3 :=
  match goal with
  | |- [[?a; ?b; ?c]; [?d; ?e; ?f]; [?g; ?h; ?i]] = of_mat3 ?y =>
      change (of_mat3 (Mat3 a b c d e f g h i) = of_mat3 y); apply f_equal
  end.

Lemma mmul_of_mat3 (x y : mat3 R) :
  mmul 3 3 3 (of_mat3 x) (of_mat3 y) = of_mat3 (mul3 x y).
Proof. destruct x, y. cbn. as_mat3. unfold mul3; cbn. f_equal; ring. Qed.

Lemma madd_of_mat3 (x y : mat3 R) :
  madd 3 3 (of_mat3 x) (of_mat3 y) = of_mat3 (add3 x y).
Proof. destruct x, y. cbn. as_mat3. reflexivity. Qed.

Lemma mscale_of_mat3 (c : R) (x : mat3 R) :
  mscale 3 3 c (of_mat3 x) = of_mat3 (scale3 c x).
Proof. destruct x. cbn. as_mat3. reflexivity. Qed.

Lemma mtrans_of_mat3 (x : mat3 R) :
  mtrans 3 3 (of_mat3 x) = of_mat3 (transpose3 x).
Proof. destruct x. cbn. as_mat3. reflexivity. Qed.

Lemma eye_of_mat3 : eye 3 = of_mat3 identity3.
Proof. reflexivity. Qed.

Lemma mzero_of_mat3 : mzero 3 3 = of_mat3 zero_mat3.
Proof. reflexivity. Qed.

Lemma trace_of_mat3 (x : mat3 R) : trace 3 (of_mat3 x) = trace3 x.
Proof. destruct x. unfold trace, trace3; cbn. ring. Qed.

Lemma mget_mmul (m n p : nat) (A B : matrix) (i j : nat) :
  (i < m)%nat -> (j < p)%nat ->
  mget (mmul m n p A B) i j = sum_n n (fun k => mget A i k * mget B k j).
Proof. intros Hi Hj. unfold mmul. apply mget_mk_matrix; assumption. Qed.

Lemma mmul_assoc (m n p q : nat) (A B C : matrix) :
  mmul m p q (mmul m n p A B) C = mmul m n q A (mmul n p q B C).
Proof.
  unfold mmul at 1 3. apply mk_matrix_ext. intros i j Hi Hj.
  rewrite (@sum_n_ext p _
             (fun l =>
                sum_n n (fun k => mget A i k * mget B k l * mget C l j))).
  2: { intros l Hl. rewrite mget_mmul by assumption.
       rewrite <- sum_n_scal_r. reflexivity. }
  rewrite (@sum_n_ext n (fun k => mget A i k * mget (mmul n p q B C) k j)
             (fun k =>
                sum_n p (fun l => mget A i k * mget B k l * mget C l j))).
  2: { intros k Hk. rewrite mget_mmul by assumption.
       rewrite <- sum_n_scal_l. apply sum_n_ext. intros l _. ring. }
  apply sum_n_swap.
Qed.

Lemma mmul_mscale_r (m n p : nat) (c : R) (A B : matrix) :
  mmul m n p A (mscale n p c B) = mscale m p c (mmul m n p A B).
Proof.
  unfold mscale at 2. unfold mmul at 1. apply mk_matrix_ext. intros i j Hi Hj.
  rewrite mget_mmul by assumption. rewrite <- sum_n_scal_l.
  apply sum_n_ext. intros k Hk.
  unfold mscale. rewrite mget_mk_matrix by assumption. ring.
Qed.

Lemma gram3_symmetric (n : nat) (A : matrix) : symmetric3 (gram3 n A).
Proof.
  unfold symmetric3, gram3; cbn.
  repeat split; apply sum_n_ext; intros k _; ring.
Qed.

Lemma gram3_eq (n : nat) (A : matrix) :
  mmul 3 n 3 A (mtrans 3 n A) = of_mat3 (gram3 n A).
Proof.
  unfold mmul. cbn [mk_matrix seq map]. as_mat3. unfold gram3.
  f_equal; apply sum_n_ext; intros k Hk; unfold mtrans;
    rewrite mget_mk_matrix by (exact Hk || lia); reflexivity.
Qed.

(** The pseudo-inverse of a three-row array is its transpose times the
    truncated inverse of its Gram matrix. *)
Lemma pinv_three_rows (n : nat) (A : matrix) :
  has_shape 3 n A ->
  pinv A =
  mmul n 3 3 (mtrans 3 n A) (of_mat3 (truncated_inverse (gram3 n A))).
Proof.
  intros HA. unfold pinv, transpose.
  rewrite (has_shape_nrows HA), (has_shape_ncols HA) by lia.
  reflexivity.
Qed.

(** *** The truncated inverse on the eigenvectors

    What [np.linalg.pinv] does with each singular value: on an eigenvector
    of [G] of eigenvalue [l], the truncated inverse multiplies by [1 / l]
    when the singular value [sqrt l] is above the cut-off, and by 0 when it
    is not. *)

Ltac vec3_eq :=
  apply (f_equal2 (@pair (R * R) R)); [apply (f_equal2 (@pair R R)) |].

Ltac vec3_ring :=
  repeat match goal with
         | x : mat3 R |- _ => destruct x
         | u : vec3 |- _ => destruct u as [[? ?] ?]
         end;
  cbv [mulv3 scalev3 mul3 add3 scale3 identity3 zero_mat3 minus_scalar3
       adj3 det3 r00 r01 r02 r10 r11 r12 r20 r21 r22];
  try (vec3_eq; ring).

Lemma mulv3_mul3 (x y : mat3 R) (u : vec3) :
  mulv3 (mul3 x y) u = mulv3 x (mulv3 y u).
Proof. vec3_ring. Qed.

Lemma mulv3_scale3 (k : R) (x : mat3 R) (u : vec3) :
  mulv3 (scale3 k x) u = scalev3 k (mulv3 x u).
Proof. vec3_ring. Qed.

Lemma mulv3_scalev3 (k : R) (x : mat3 R) (u : vec3) :
  mulv3 x (scalev3 k u) = scalev3 k (mulv3 x u).
Proof. vec3_ring. Qed.

Lemma scalev3_scalev3 (k l : R) (u : vec3) :
  scalev3 k (scalev3 l u) = scalev3 (k * l) u.
Proof. vec3_ring. Qed.

Lemma mulv3_zero (u : vec3) : mulv3 zero_mat3 u = scalev3 0 u.
Proof. vec3_ring. Qed.

Lemma scalev3_1 (u : vec3) : scalev3 1 u = u.
Proof. vec3_ring. Qed.

Lemma scalev3_0_eq (u : vec3) : scalev3 0 u = (0, 0, 0).
Proof. vec3_ring. Qed.

(** On an eigenvector, [G - a I] multiplies by [l - a]. *)
Lemma mulv3_minus_scalar3 (G : mat3 R) (l a : R) (u : vec3) :
  mulv3 G u = scalev3 l u ->
  mulv3 (minus_scalar3 G a) u = scalev3 (l - a) u.
Proof.
  destruct G, u as [[u0 u1] u2].
  cbv [mulv3 scalev3 minus_scalar3 add3 scale3 identity3
       r00 r01 r02 r10 r11 r12 r20 r21 r22].
  intros H. injection H as H0 H1 H2.
  vec3_eq; lra.
Qed.

Lemma mulv3_eigen_projector3 (G : mat3 R) (l x a b : R) (u : vec3) :
  mulv3 G u = scalev3 l u ->
  mulv3 (eigen_projector3 G x a b) u =
  scalev3 (/ ((x - a) * (x - b)) * ((l - a) * (l - b))) u.
Proof.
  intros H. unfold eigen_projector3.
  rewrite mulv3_scale3, mulv3_mul3, (@mulv3_minus_scalar3 G l b u H).
  rewrite mulv3_scalev3, (@mulv3_minus_scalar3 G l a u H), !scalev3_scalev3.
  f_equal. ring.
Qed.

(** An eigenvalue is a root of the characteristic polynomial. *)
Lemma eigenvalue_in_spectrum (G : mat3 R) (l1 l2 l3 l : R) (u : vec3) :
  is_spectrum G l1 l2 l3 -> u <> (0, 0, 0) ->
  mulv3 G u = scalev3 l u ->
  l = l1 \/ l = l2 \/ l = l3.
Proof.
  intros (_ & _ & Ht & Hm & Hd) Hu H.
  assert (Hz : mulv3 (minus_scalar3 G l) u = (0, 0, 0)).
  { rewrite (@mulv3_minus_scalar3 G l l u H).
    replace (l - l) with 0 by ring. apply scalev3_0_eq. }
  assert (Hdet : det3 (minus_scalar3 G l) = (l1 - l) * (l2 - l) * (l3 - l)).
  { transitivity (det3 G - l * minors3 G + l * l * trace3 G - l * l * l).
    - clear. destruct G.
      cbv [det3 minors3 trace3 minus_scalar3 add3 scale3 identity3
           r00 r01 r02 r10 r11 r12 r20 r21 r22]. ring.
    - rewrite <- Ht, <- Hm, <- Hd. ring. }
  assert (Hadj : scalev3 (det3 (minus_scalar3 G l)) u = (0, 0, 0)).
  { transitivity (mulv3 (adj3 (minus_scalar3 G l))
                    (mulv3 (minus_scalar3 G l) u)).
    - clear. generalize (minus_scalar3 G l). intros S. vec3_ring.
    - rewrite Hz. generalize (adj3 (minus_scalar3 G l)). intros S.
      destruct S. cbv [mulv3 r00 r01 r02 r10 r11 r12 r20 r21 r22].
      vec3_eq; ring. }
  assert (Hzero : (l1 - l) * (l2 - l) * (l3 - l) = 0).
  { rewrite <- Hdet. destruct u as [[u0 u1] u2].
    cbv [scalev3] in Hadj. injection Hadj as H0 H1 H2.
    destruct (Req_dec (det3 (minus_scalar3 G l)) 0) as [E | E]; [exact E |].
    exfalso. apply Hu.
    apply Rmult_integral in H0, H1, H2.
    destruct H0; [contradiction |]. destruct H1; [contradiction |].
    destruct H2; [contradiction |]. subst. reflexivity. }
  apply Rmult_integral in Hzero. destruct Hzero as [Hzero | Hzero].
  - apply Rmult_integral in Hzero. destruct Hzero; [left | right; left]; lra.
  - right; right; lra.
Qed.

(** The adjugate on an eigenvector of non-zero eigenvalue. *)
Lemma mulv3_adj3 (G : mat3 R) (l : R) (u : vec3) :
  l <> 0 -> mulv3 G u = scalev3 l u ->
  mulv3 (adj3 G) u = scalev3 (det3 G / l) u.
Proof.
  intros Hl H.
  assert (E : scalev3 l (mulv3 (adj3 G) u) = scalev3 (det3 G) u).
  { rewrite <- mulv3_scalev3, <- H, <- mulv3_mul3, adj3_mul3.
    clear. vec3_ring. }
  transitivity (scalev3 (/ l) (scalev3 l (mulv3 (adj3 G) u))).
  - rewrite scalev3_scalev3.
    replace (/ l * l) with 1 by (field; exact Hl).
    symmetry. apply scalev3_1.
  - rewrite E, scalev3_scalev3. f_equal. field. exact Hl.
Qed.

Lemma truncated_inverse_eigenvector
  (G : mat3 R) (l1 l2 l3 l : R) (u : vec3) :
  is_spectrum G l1 l2 l3 -> u <> (0, 0, 0) ->
  mulv3 G u = scalev3 l u ->
  mulv3 (truncated_inverse G) u =
  scalev3 (if Rlt_dec (rcond * sqrt l1) (sqrt l) then / l else 0) u.
Proof.
  intros Hs Hu H.
  pose proof (@eigenvalue_in_spectrum G l1 l2 l3 l u Hs Hu H) as Hl.
  unfold truncated_inverse. rewrite (spectrum_eq Hs).
  destruct Hs as (H32 & H21 & Ht & Hm & Hd).
  pose proof (cutoff_nonneg l1) as Hc.
  assert (S32 : sqrt l3 <= sqrt l2) by (apply sqrt_le_1_alt; exact H32).
  assert (S21 : sqrt l2 <= sqrt l1) by (apply sqrt_le_1_alt; exact H21).
  destruct (Rlt_dec (rcond * sqrt l1) (sqrt l3)) as [C3 | C3].
  { (* all kept *)
    assert (P3 : 0 < l3) by (apply sqrt_pos_inv; lra).
    assert (Hdet : 0 < det3 G).
    { rewrite <- Hd. repeat apply Rmult_lt_0_compat; lra. }
    assert (Hk : rcond * sqrt l1 < sqrt l)
      by (destruct Hl as [-> | [-> | ->]]; lra).
    assert (Hl0 : l <> 0) by (destruct Hl as [-> | [-> | ->]]; lra).
    destruct (Rlt_dec (rcond * sqrt l1) (sqrt l)) as [_ | K];
      [| contradiction].
    rewrite mulv3_scale3, (@mulv3_adj3 G l u Hl0 H), scalev3_scalev3.
    f_equal. field. split; lra. }
  destruct (Rlt_dec (rcond * sqrt l1) (sqrt l2)) as [C2 | C2].
  { (* s3 dropped *)
    assert (P2 : 0 < l2) by (apply sqrt_pos_inv; lra).
    assert (L32 : l3 < l2).
    { destruct (Rlt_or_le l3 l2) as [E | E]; [exact E |].
      apply sqrt_le_1_alt in E. lra. }
    rewrite mulv3_mul3, mulv3_scale3.
    assert (E1 : mulv3 (add3 (scale3 (l1 + l2) identity3) (scale3 (- 1) G)) u
                 = scalev3 (l1 + l2 - l) u).
    { clear - H. destruct G, u as [[u0 u1] u2].
      cbv [mulv3 scalev3 add3 scale3 identity3
           r00 r01 r02 r10 r11 r12 r20 r21 r22] in *.
      injection H as H0 H1 H2. vec3_eq; lra. }
    rewrite E1, scalev3_scalev3, mulv3_scalev3.
    assert (E2 : mulv3 (add3 identity3
                          (scale3 (- 1) (eigen_projector3 G l3 l1 l2))) u
                 = scalev3 (1 - / ((l3 - l1) * (l3 - l2))
                                * ((l - l1) * (l - l2))) u).
    { pose proof (@mulv3_eigen_projector3 G l l3 l1 l2 u H) as E.
      revert E. generalize (eigen_projector3 G l3 l1 l2). intros P E.
      clear - E. destruct P, u as [[u0 u1] u2].
      cbv [mulv3 scalev3 add3 scale3 identity3
           r00 r01 r02 r10 r11 r12 r20 r21 r22] in *.
      injection E as E0 E1 E2. vec3_eq; lra. }
    rewrite E2, scalev3_scalev3.
    destruct Hl as [-> | [-> | ->]].
    - destruct (Rlt_dec (rcond * sqrt l1) (sqrt l1)) as [_ | K]; [| lra].
      f_equal. field. repeat split; lra.
    - destruct (Rlt_dec (rcond * sqrt l1) (sqrt l2)) as [_ | K];
        [| contradiction].
      f_equal. field. repeat split; lra.
    - destruct (Rlt_dec (rcond * sqrt l1) (sqrt l3)) as [K | _];
        [contradiction |].
      f_equal. field. repeat split; lra. }
  destruct (Rlt_dec (rcond * sqrt l1) (sqrt l1)) as [C1 | C1].
  { (* s1 alone kept *)
    assert (P1 : 0 < l1) by (apply sqrt_pos_inv; lra).
    assert (L21 : l2 < l1).
    { destruct (Rlt_or_le l2 l1) as [E | E]; [exact E |].
      apply sqrt_le_1_alt in E. lra. }
    rewrite mulv3_scale3, (@mulv3_eigen_projector3 G l l1 l2 l3 u H),
      scalev3_scalev3.
    destruct Hl as [-> | [-> | ->]].
    - destruct (Rlt_dec (rcond * sqrt l1) (sqrt l1)) as [_ | K];
        [| contradiction].
      f_equal. field. repeat split; lra.
    - destruct (Rlt_dec (rcond * sqrt l1) (sqrt l2)) as [K | _];
        [contradiction |].
      f_equal. field. repeat split; lra.
    - destruct (Rlt_dec (rcond * sqrt l1) (sqrt l3)) as [K | _];
        [contradiction |].
      f_equal. field. repeat split; lra. }
  (* nothing kept *)
  assert (K : ~ rcond * sqrt l1 < sqrt l)
    by (destruct Hl as [-> | [-> | ->]]; lra).
  destruct (Rlt_dec (rcond * sqrt l1) (sqrt l)) as [K' | _];
    [contradiction |].
  apply mulv3_zero.
Qed.

(** [np.linalg.pinv] on a left singular vector [u] of [A], an eigenvector of
    [A @ A.T] of eigenvalue [l]: [pinv(A) @ u] is [A.T @ u / l] when the
    singular value [sqrt l] is above the cut-off, and zero when it is
    not. *)
Lemma mvec_mmul_of_mat3 (n : nat) (B : matrix) (M : mat3 R) (u : vec3) :
  mvec n 3 (mmul n 3 3 B (of_mat3 M)) (of_vec3 u) =
  mvec n 3 B (of_vec3 (mulv3 M u)).
Proof.
  unfold mvec. apply mk_vector_ext. intros i Hi.
  cbn [sum_n]. rewrite !mget_mmul by (exact Hi || lia).
  destruct M, u as [[u0 u1] u2].
  cbn [sum_n mget of_mat3 of_vec3 mulv3 vget nth
       r00 r01 r02 r10 r11 r12 r20 r21 r22].
  ring.
Qed.

Lemma pinv_singular_vector
  (n : nat) (A : matrix) (l1 l2 l3 l : R) (u : vec3) :
  has_shape 3 n A ->
  is_spectrum (gram3 n A) l1 l2 l3 -> u <> (0, 0, 0) ->
  mulv3 (gram3 n A) u = scalev3 l u ->
  mvec n 3 (pinv A) (of_vec3 u) =
  mvec n 3 (mtrans 3 n A)
    (of_vec3
       (scalev3 (if Rlt_dec (rcond * sqrt l1) (sqrt l) then / l else 0) u)).
Proof.
  intros HA Hs Hu H.
  rewrite (pinv_three_rows HA), mvec_mmul_of_mat3.
  rewrite (@truncated_inverse_eigenvector (gram3 n A) l1 l2 l3 l u Hs Hu H).
  reflexivity.
Qed.

(** *** The Penrose equations *)

Lemma sum_n_lin3 (n : nat) (x y z : R) (f g h : nat -> R) :
  sum_n n (fun k => x * f k + y * g k + z * h k) =
  x * sum_n n f + y * sum_n n g + z * sum_n n h.
Proof. induction n as [| n IH]; cbn; [ring | rewrite IH; ring]. Qed.

(** A combination of three rows that is orthogonal to each of them is
    zero. *)
Lemma combination_in_kernel (n : nat) (u v w : nat -> R) (x y z : R) :
  x * sum_n n (fun k => u k * u k) + y * sum_n n (fun k => v k * u k)
  + z * sum_n n (fun k => w k * u k) = 0 ->
  x * sum_n n (fun k => u k * v k) + y * sum_n n (fun k => v k * v k)
  + z * sum_n n (fun k => w k * v k) = 0 ->
  x * sum_n n (fun k => u k * w k) + y * sum_n n (fun k => v k * w k)
  + z * sum_n n (fun k => w k * w k) = 0 ->
  forall k, (k < n)%nat -> x * u k + y * v k + z * w k = 0.
Proof.
  intros Hu Hv Hw.
  apply (@sum_n_squares_zero n (fun k => x * u k + y * v k + z * w k)).
  rewrite (@sum_n_ext n _
             (fun k => x * ((x * u k + y * v k + z * w k) * u k)
                       + y * ((x * u k + y * v k + z * w k) * v k)
                       + z * ((x * u k + y * v k + z * w k) * w k)))
    by (intros k _; ring).
  rewrite sum_n_lin3.
  rewrite (@sum_n_ext n (fun k => (x * u k + y * v k + z * w k) * u k)
             (fun k => x * (u k * u k) + y * (v k * u k) + z * (w k * u k)))
    by (intros k _; ring).
  rewrite (@sum_n_ext n (fun k => (x * u k + y * v k + z * w k) * v k)
             (fun k => x * (u k * v k) + y * (v k * v k) + z * (w k * v k)))
    by (intros k _; ring).
  rewrite (@sum_n_ext n (fun k => (x * u k + y * v k + z * w k) * w k)
             (fun k => x * (u k * w k) + y * (v k * w k) + z * (w k * w k)))
    by (intros k _; ring).
  rewrite !sum_n_lin3, Hu, Hv, Hw. ring.
Qed.

(** A 3 x 3 matrix [E] with [E G = G], [G] the Gram matrix of [A], fixes
    the rows of [A]. *)
Lemma gram_fixed_rows (n : nat) (A : matrix) (E : mat3 R) :
  mul3 E (gram3 n A) = gram3 n A ->
  forall k, (k < n)%nat ->
    r00 E * mget A 0 k + r01 E * mget A 1 k + r02 E * mget A 2 k
    = mget A 0 k /\
    r10 E * mget A 0 k + r11 E * mget A 1 k + r12 E * mget A 2 k
    = mget A 1 k /\
    r20 E * mget A 0 k + r21 E * mget A 1 k + r22 E * mget A 2 k
    = mget A 2 k.
Proof.
  destruct E as [e00 e01 e02 e10 e11 e12 e20 e21 e22].
  unfold gram3, mul3. cbn [r00 r01 r02 r10 r11 r12 r20 r21 r22].
  intros HEG.
  injection HEG as H00 H01 H02 H10 H11 H12 H20 H21 H22.
  intros k Hk.
  pose proof (@combination_in_kernel n (mget A 0) (mget A 1) (mget A 2)
                (e00 - 1) e01 e02) as K0.
  pose proof (@combination_in_kernel n (mget A 0) (mget A 1) (mget A 2)
                e10 (e11 - 1) e12) as K1.
  pose proof (@combination_in_kernel n (mget A 0) (mget A 1) (mget A 2)
                e20 e21 (e22 - 1)) as K2.
  cbv beta in K0, K1, K2.
  specialize (K0 ltac:(lra) ltac:(lra) ltac:(lra) k Hk).
  specialize (K1 ltac:(lra) ltac:(lra) ltac:(lra) k Hk).
  specialize (K2 ltac:(lra) ltac:(lra) ltac:(lra) k Hk).
  repeat split; lra.
Qed.

(** A vector fixed by a symmetric [E] that commutes with [M]: [a M E = a M]
    for the row vector [a = (u, v, w)]. *)
Lemma fixed_vector_factor (M E : mat3 R) (u v w : R) :
  symmetric3 E ->
  mul3 M E = mul3 E M ->
  r00 E * u + r01 E * v + r02 E * w = u ->
  r10 E * u + r11 E * v + r12 E * w = v ->
  r20 E * u + r21 E * v + r22 E * w = w ->
  (u * r00 M + v * r10 M + w * r20 M) * r00 E
  + (u * r01 M + v * r11 M + w * r21 M) * r10 E
  + (u * r02 M + v * r12 M + w * r22 M) * r20 E
  = u * r00 M + v * r10 M + w * r20 M /\
  (u * r00 M + v * r10 M + w * r20 M) * r01 E
  + (u * r01 M + v * r11 M + w * r21 M) * r11 E
  + (u * r02 M + v * r12 M + w * r22 M) * r21 E
  = u * r01 M + v * r11 M + w * r21 M /\
  (u * r00 M + v * r10 M + w * r20 M) * r02 E
  + (u * r01 M + v * r11 M + w * r21 M) * r12 E
  + (u * r02 M + v * r12 M + w * r22 M) * r22 E
  = u * r02 M + v * r12 M + w * r22 M.
Proof.
  destruct M as [m00 m01 m02 m10 m11 m12 m20 m21 m22].
  destruct E as [e00 e01 e02 e10 e11 e12 e20 e21 e22].
  cbv [symmetric3 mul3 r00 r01 r02 r10 r11 r12 r20 r21 r22].
  intros (-> & -> & ->) Hc F0 F1 F2.
  injection Hc as C00 C01 C02 C10 C11 C12 C20 C21 C22.
  repeat split; nsatz.
Qed.

Section Penrose.

Variable n : nat.
Variable A : matrix.
Hypothesis HA : has_shape 3 n A.

(** A symmetric 3 x 3 matrix [M] that commutes with the Gram matrix [G] of
    [A], with [G M G = G]; [X] is [A.T @ M]. *)
Variable M : mat3 R.
Let G : mat3 R := gram3 n A.
Hypothesis factor_symmetric : symmetric3 M.
Hypothesis factor_commutes : mul3 G M = mul3 M G.
Hypothesis projector_fixes_gram : mul3 (mul3 G M) G = G.

Let E : mat3 R := mul3 G M.
Let At : matrix := mtrans 3 n A.
Let X : matrix := mmul n 3 3 At (of_mat3 M).

Lemma projector_symmetric : symmetric3 E.
Proof.
  apply mul3_sym.
  - apply gram3_symmetric.
  - apply factor_symmetric.
  - apply factor_commutes.
Qed.

(** [A @ X] is the 3 x 3 matrix [E]. *)
Lemma range_projector : mmul 3 n 3 A X = of_mat3 E.
Proof.
  unfold X, At. rewrite <- mmul_assoc, gram3_eq. apply mmul_of_mat3.
Qed.

Lemma projector_fixes_rows :
  forall i k, (i < 3)%nat -> (k < n)%nat ->
    sum_n 3 (fun j => mget (of_mat3 E) i j * mget A j k) = mget A i k.
Proof.
  intros i k Hi Hk.
  assert (HE : mul3 E (gram3 n A) = gram3 n A) by exact projector_fixes_gram.
  destruct (gram_fixed_rows HE Hk) as (H0 & H1 & H2).
  destruct i as [| [| [| i]]]; [| | | lia];
    cbn [sum_n mget of_mat3 nth]; lra.
Qed.

(** First Penrose equation: A X A = A. *)
Lemma penrose_1 : mmul 3 3 n (mmul 3 n 3 A X) A = A.
Proof.
  rewrite range_projector. rewrite (matrix_eta HA) at 2.
  unfold mmul. apply mk_matrix_ext. intros i k Hi Hk.
  apply projector_fixes_rows; assumption.
Qed.

(** Third Penrose equation: A X is symmetric. *)
Lemma penrose_3 : symmetric 3 (mmul 3 n 3 A X).
Proof.
  unfold symmetric. rewrite range_projector, mtrans_of_mat3.
  rewrite (transpose3_sym projector_symmetric). reflexivity.
Qed.

Lemma pinv_entry (i l : nat) :
  (i < n)%nat -> (l < 3)%nat ->
  mget X i l = mget A 0 i * mget (of_mat3 M) 0 l
               + mget A 1 i * mget (of_mat3 M) 1 l
               + mget A 2 i * mget (of_mat3 M) 2 l.
Proof.
  intros Hi Hl. unfold X. rewrite mget_mmul by assumption.
  cbn [sum_n]. unfold At, mtrans.
  rewrite !mget_mk_matrix by (exact Hi || lia). ring.
Qed.

(** Fourth Penrose equation: X A is symmetric. *)
Lemma penrose_4 : symmetric n (mmul n 3 n X A).
Proof.
  unfold symmetric, mtrans. unfold mmul at 2. apply mk_matrix_ext.
  intros i j Hi Hj. rewrite mget_mmul by assumption.
  cbn [sum_n]. rewrite !pinv_entry by (assumption || lia).
  destruct factor_symmetric as (S10 & S20 & S21).
  cbn [mget of_mat3 nth]. rewrite S10, S20, S21. ring.
Qed.

(** Second Penrose equation: X A X = X. *)
Lemma penrose_2 : mmul n n 3 (mmul n 3 n X A) X = X.
Proof.
  rewrite mmul_assoc, range_projector.
  unfold X at 2. unfold mmul. apply mk_matrix_ext. intros i j Hi Hj.
  fold (mmul n 3 3 At (of_mat3 M)). fold X.
  cbn [sum_n]. rewrite !pinv_entry by (assumption || lia).
  unfold At, mtrans. rewrite !mget_mk_matrix by (exact Hi || lia).
  assert (Hc : mul3 M E = mul3 E M).
  { unfold E. rewrite <- mul3_assoc, <- factor_commutes. reflexivity. }
  assert (HE : mul3 E (gram3 n A) = gram3 n A) by exact projector_fixes_gram.
  destruct (gram_fixed_rows HE Hi) as (F0 & F1 & F2).
  destruct (fixed_vector_factor projector_symmetric Hc F0 F1 F2)
    as (K0 & K1 & K2).
  destruct j as [| [| [| j]]]; [| | | lia];
    cbn [mget of_mat3 nth]; lra.
Qed.

Lemma factor_moore_penrose : moore_penrose 3 n A X.
Proof.
  split; [exact penrose_1 |]. split; [exact penrose_2 |].
  split; [exact penrose_3 | exact penrose_4].
Qed.

End Penrose.

(** Where [np.linalg.pinv] drops no singular value but a zero one, its
    result satisfies the four Penrose equations. *)
Lemma pinv_moore_penrose (n : nat) (A : matrix) (l1 l2 l3 : R) :
  has_shape 3 n A ->
  is_spectrum (gram3 n A) l1 l2 l3 -> drops_nothing l1 l2 l3 ->
  moore_penrose 3 n A (pinv A).
Proof.
  intros HA Hs Hk. rewrite (pinv_three_rows HA).
  destruct (truncated_inverse_spec (gram3_symmetric n A) Hs Hk)
    as (S & C & F).
  exact (factor_moore_penrose HA S C F).
Qed.

(** *** Uniqueness

    The Penrose equations have at most one solution. *)

Lemma mtrans_mmul (m n p : nat) (A B : matrix) :
  mtrans m p (mmul m n p A B) = mmul p n m (mtrans n p B) (mtrans m n A).
Proof.
  unfold mtrans at 1. unfold mmul at 2. apply mk_matrix_ext.
  intros i j Hi Hj. rewrite mget_mmul by assumption.
  apply sum_n_ext. intros k Hk. unfold mtrans.
  rewrite !mget_mk_matrix by assumption. ring.
Qed.

Lemma moore_penrose_unique (m n : nat) (A X Y : matrix) :
  moore_penrose m n A X -> moore_penrose m n A Y -> X = Y.
Proof.
  intros (X1 & X2 & X3 & X4) (Y1 & Y2 & Y3 & Y4).
  unfold symmetric in *.
  set (AX := mmul m n m A X) in *. set (AY := mmul m n m A Y) in *.
  set (XA := mmul n m n X A) in *. set (YA := mmul n m n Y A) in *.
  assert (HAX : AX = AY).
  { transitivity (mmul m m m AY AX).
    - unfold AX at 2. rewrite <- mmul_assoc. fold AY.
      rewrite Y1. reflexivity.
    - rewrite <- Y3 at 1. rewrite <- X3 at 1. rewrite <- mtrans_mmul.
      unfold AY at 1. rewrite <- mmul_assoc. fold AX.
      rewrite X1. fold AY. exact Y3. }
  assert (HXA : XA = YA).
  { transitivity (mmul n n n XA YA).
    - unfold XA at 2. rewrite mmul_assoc. unfold YA.
      rewrite <- (mmul_assoc m n m n A Y A). fold AY.
      rewrite Y1. reflexivity.
    - rewrite <- X4 at 1. rewrite <- Y4 at 1. rewrite <- mtrans_mmul.
      unfold YA at 1. rewrite mmul_assoc. unfold XA.
      rewrite <- (mmul_assoc m n m n A X A). fold AX.
      rewrite X1. fold YA. exact Y4. }
  rewrite <- X2, <- Y2. rewrite HXA.
  unfold YA at 1. rewrite mmul_assoc. fold AX. rewrite HAX.
  unfold AY. rewrite <- mmul_assoc. reflexivity.
Qed.

(** ** The pseudo-inverse on sample arrays *)

Ltac rows_eq :=
  lazymatch goal with
  | |- (_ :: _) = (_ :: _) =>
      first [ apply (f_equal2 (@cons R)); [lra | rows_eq]
            | apply (f_equal2 (@cons (list R))); [rows_eq | rows_eq] ]
  | |- _ => reflexivity
  end.

Ltac penrose_by_computation :=
  unfold moore_penrose, symmetric, unit_jacobian;
  repeat split; cbn; rows_eq.

Lemma zero_or_kept_largest (l : R) : 0 <= l -> zero_or_kept l l.
Proof.
  intros [Hl | Hl]; [right | left; symmetry; exact Hl].
  pose proof rcond_bounds. pose proof (sqrt_lt_R0 l Hl). nra.
Qed.

(** When the smallest singular value is above the cut-off, all are. *)
Lemma smallest_kept_drops_nothing (l1 l2 l3 : R) :
  l3 <= l2 -> l2 <= l1 -> rcond * sqrt l1 < sqrt l3 -> drops_nothing l1 l2 l3.
Proof.
  intros H32 H21 H.
  pose proof (cutoff_nonneg l1) as Hc.
  assert (P3 : 0 < l3) by (apply sqrt_pos_inv; lra).
  assert (S32 : sqrt l3 <= sqrt l2) by (apply sqrt_le_1; lra).
  assert (S21 : sqrt l2 <= sqrt l1) by (apply sqrt_le_1; lra).
  repeat split; right; lra.
Qed.

Lemma unit_jacobian_gram : gram3 N_JOINTS unit_jacobian = identity3.
Proof.
  unfold gram3, unit_jacobian, identity3, N_JOINTS. cbn. f_equal; ring.
Qed.

Lemma unit_jacobian_spectrum :
  is_spectrum (gram3 N_JOINTS unit_jacobian) 1 1 1.
Proof.
  rewrite unit_jacobian_gram.
  unfold is_spectrum, trace3, minors3, det3; cbn. repeat split; lra.
Qed.

Lemma unit_jacobian_kept : rcond * sqrt 1 < sqrt 1.
Proof. rewrite sqrt_1. pose proof rcond_bounds. lra. Qed.

Lemma unit_jacobian_drops_nothing : drops_nothing 1 1 1.
Proof.
  apply smallest_kept_drops_nothing; [lra | lra | exact unit_jacobian_kept].
Qed.

(** Orthonormal rows: the pseudo-inverse is the transpose. *)
Example pinv_unit_jacobian :
  pinv unit_jacobian =
  [[1; 0; 0]; [0; 1; 0]; [0; 0; 1]; [0; 0; 0]; [0; 0; 0]; [0; 0; 0];
   [0; 0; 0]].
Proof.
  apply (@moore_penrose_unique 3 N_JOINTS unit_jacobian).
  - exact (pinv_moore_penrose unit_jacobian_shape unit_jacobian_spectrum
             unit_jacobian_drops_nothing).
  - penrose_by_computation.
Qed.

(** A Jacobian of rank one, two equal rows and a zero row: its singular
    values are sqrt 8, 0 and 0. *)
Example pinv_rank_one :
  pinv [[2; 0; 0; 0; 0; 0; 0]; [2; 0; 0; 0; 0; 0; 0]; [0; 0; 0; 0; 0; 0; 0]] =
  [[1 / 4; 1 / 4; 0]; [0; 0; 0]; [0; 0; 0]; [0; 0; 0]; [0; 0; 0]; [0; 0; 0];
   [0; 0; 0]].
Proof.
  apply (@moore_penrose_unique 3 N_JOINTS
           [[2; 0; 0; 0; 0; 0; 0]; [2; 0; 0; 0; 0; 0; 0];
            [0; 0; 0; 0; 0; 0; 0]]).
  - apply (@pinv_moore_penrose N_JOINTS _ 8 0 0).
    + split; [reflexivity | repeat constructor].
    + unfold is_spectrum, gram3, trace3, minors3, det3, N_JOINTS; cbn.
      repeat split; lra.
    + split; [apply zero_or_kept_largest; lra |].
      split; left; reflexivity.
  - penrose_by_computation.
Qed.

(** *** A singular value below the cut-off *)

Lemma small_singular_value : 0 < / 2 ^ 70 <= rcond.
Proof.
  assert (H : 10 ^ 15 <= 2 ^ 70).
  { rewrite !pow_IZR. apply IZR_le. vm_compute. discriminate. }
  assert (H10 : 0 < 10 ^ 15) by (apply pow_lt; lra).
  assert (H2 : 0 < 2 ^ 70) by (apply pow_lt; lra).
  split; [apply Rinv_0_lt_compat; exact H2 |].
  unfold rcond, Rdiv. rewrite Rmult_1_l.
  apply Rinv_le_contravar; assumption.
Qed.

Lemma small_singular_jacobian_shape :
  has_shape 3 N_JOINTS small_singular_jacobian.
Proof. split; [reflexivity | repeat constructor]. Qed.

Lemma small_singular_jacobian_gram :
  gram3 N_JOINTS small_singular_jacobian =
  Mat3 1 0 0 0 (/ 2 ^ 70 * / 2 ^ 70) 0 0 0 1.
Proof.
  unfold gram3, small_singular_jacobian, N_JOINTS.
  set (e := / 2 ^ 70). cbn. f_equal; ring.
Qed.

(** The singular values of [small_singular_jacobian] are 1, 1 and 2^-70. *)
Lemma small_singular_jacobian_spectrum :
  is_spectrum (gram3 N_JOINTS small_singular_jacobian)
    1 1 (/ 2 ^ 70 * / 2 ^ 70).
Proof.
  rewrite small_singular_jacobian_gram.
  pose proof small_singular_value as He. pose proof rcond_bounds as Hr.
  set (e := / 2 ^ 70) in *.
  unfold is_spectrum, trace3, minors3, det3; cbn.
  split; [nra |]. split; [lra |]. repeat split; ring.
Qed.

(** [np.linalg.pinv] drops the singular value 2^-70: the second column of
    the result is zero. *)
Example pinv_small_singular_jacobian :
  pinv small_singular_jacobian =
  [[1; 0; 0]; [0; 0; 0]; [0; 0; 1]; [0; 0; 0]; [0; 0; 0]; [0; 0; 0];
   [0; 0; 0]].
Proof.
  rewrite (pinv_three_rows small_singular_jacobian_shape).
  assert (HM : truncated_inverse (gram3 N_JOINTS small_singular_jacobian)
               = Mat3 1 0 0 0 0 0 0 0 1).
  { unfold truncated_inverse.
    rewrite (spectrum_eq small_singular_jacobian_spectrum).
    rewrite small_singular_jacobian_gram.
    pose proof small_singular_value as He. pose proof rcond_bounds as Hr.
    set (e := / 2 ^ 70) in *.
    rewrite sqrt_1, sqrt_square by lra. rewrite Rmult_1_r.
    destruct (Rlt_dec rcond e) as [H | _]; [lra |].
    destruct (Rlt_dec rcond 1) as [_ | H]; [| lra].
    assert (He2 : e * e < 1) by nra.
    unfold eigen_projector3, minus_scalar3.
    cbv [mul3 add3 scale3 identity3 r00 r01 r02 r10 r11 r12 r20 r21 r22].
    f_equal; field; lra. }
  rewrite HM. unfold small_singular_jacobian, N_JOINTS.
  set (e := / 2 ^ 70). cbn. rows_eq.
Qed.

(** ** Null-space non-interference: C3 *)

(** Where no singular value but a zero one is dropped, the Jacobian
    annihilates the projector I - J+ J. *)
Lemma jacobian_times_projector (J : matrix) (l1 l2 l3 : R) :
  has_shape 3 N_JOINTS J ->
  is_spectrum (gram3 N_JOINTS J) l1 l2 l3 -> drops_nothing l1 l2 l3 ->
  mmul 3 N_JOINTS N_JOINTS J (null_projector J) = mzero 3 N_JOINTS.
Proof.
  intros HJ Hs Hk.
  pose proof (proj1 (pinv_moore_penrose HJ Hs Hk)) as H1.
  unfold mmul at 1. apply mk_matrix_ext. intros i l Hi Hl.
  rewrite (@sum_n_ext N_JOINTS _
             (fun k => mget J i k * (if Nat.eqb k l then 1 else 0)
                       - mget J i k
                         * mget (mmul N_JOINTS 3 N_JOINTS (pinv J) J) k l)).
  2: { intros k Hk'. unfold null_projector, msub, eye.
       rewrite !mget_mk_matrix by assumption. ring. }
  rewrite sum_n_minus, sum_n_delta_r by exact Hl.
  rewrite <- (mget_mmul N_JOINTS J
                (mmul N_JOINTS 3 N_JOINTS (pinv J) J) Hi Hl).
  rewrite <- mmul_assoc, H1. ring.
Qed.

(** C3, as amended.  For every 3 x N Jacobian J each of whose singular
    values is zero or above [rcond] times the largest (the squares of the
    singular values are the eigenvalues l1 >= l2 >= l3 of J J^T), the
    pseudo-inverse satisfies J J+ J = J, and for every column q0dot of N
    entries the null-space term (I - J+ J) q0dot of the resolver is mapped
    to zero by J. *)
Theorem null_space_projection_above_cutoff
  (J q0d : matrix) (l1 l2 l3 : R) :
  has_shape 3 N_JOINTS J ->
  has_shape N_JOINTS 1 q0d ->
  is_spectrum (gram3 N_JOINTS J) l1 l2 l3 ->
  drops_nothing l1 l2 l3 ->
  (JX <- matmul J (pinv J) ;; matmul JX J) = Some J /\
  (JTJ <- matmul (pinv J) J ;;
   P <- broadcast2 Rminus (eye N_JOINTS) JTJ ;;
   null <- matmul P q0d ;;
   matmul J null) = Some (mzero 3 1).
Proof.
  intros HJ Hq Hs Hk.
  assert (HN : (0 < N_JOINTS)%nat) by (unfold N_JOINTS; lia).
  assert (HX : has_shape N_JOINTS 3 (pinv J))
    by (apply pinv_shape; [exact HJ | lia]).
  split.
  - rewrite (matmul_shaped HJ HX) by lia. cbn [bind].
    rewrite (@matmul_shaped 3 3 N_JOINTS)
      by (try apply has_shape_mk_matrix; (exact HJ || lia)).
    f_equal. apply (pinv_moore_penrose HJ Hs Hk).
  - rewrite (matmul_shaped HX HJ) by lia. cbn [bind].
    rewrite (@broadcast2_shaped Rminus N_JOINTS N_JOINTS)
      by (try apply has_shape_mk_matrix; exact HN).
    cbn [bind].
    fold (msub N_JOINTS N_JOINTS (eye N_JOINTS)
            (mmul N_JOINTS 3 N_JOINTS (pinv J) J)).
    fold (null_projector J).
    rewrite (@matmul_shaped N_JOINTS N_JOINTS 1)
      by (try apply has_shape_mk_matrix; assumption).
    cbn [bind].
    rewrite (@matmul_shaped 3 N_JOINTS 1)
      by (try apply has_shape_mk_matrix; (exact HJ || lia)).
    f_equal.
    rewrite <- mmul_assoc, (jacobian_times_projector HJ Hs Hk).
    apply mmul_zero_l.
Qed.

Lemma null_space_projection_above_cutoff_witness :
  (JX <- matmul unit_jacobian (pinv unit_jacobian) ;;
   matmul JX unit_jacobian) = Some unit_jacobian.
Proof.
  exact (proj1 (@null_space_projection_above_cutoff unit_jacobian
                  (q0dot sample_robot q_beyond 1) 1 1 1
                  unit_jacobian_shape
                  (has_shape_mk_matrix N_JOINTS 1 _)
                  unit_jacobian_spectrum unit_jacobian_drops_nothing)).
Defined.

(** C3, as stated, fails on a Jacobian with a singular value that
    [np.linalg.pinv] drops.  On [small_singular_jacobian], whose rows are
    e1, 2^-70 e2 and e3, J J+ J has a zero second row and is not J, and J
    maps the null-space term of the posture gradient e2 to (0, 2^-70, 0),
    not to zero. *)
Lemma small_singular_value_dropped :
  has_shape 3 N_JOINTS small_singular_jacobian /\
  has_shape N_JOINTS 1 second_joint_column /\
  (JX <- matmul small_singular_jacobian (pinv small_singular_jacobian) ;;
   matmul JX small_singular_jacobian) =
  Some [[1; 0; 0; 0; 0; 0; 0]; [0; 0; 0; 0; 0; 0; 0]; [0; 0; 1; 0; 0; 0; 0]] /\
  (JX <- matmul small_singular_jacobian (pinv small_singular_jacobian) ;;
   matmul JX small_singular_jacobian) <> Some small_singular_jacobian /\
  (JTJ <- matmul (pinv small_singular_jacobian) small_singular_jacobian ;;
   P <- broadcast2 Rminus (eye N_JOINTS) JTJ ;;
   null <- matmul P second_joint_column ;;
   matmul small_singular_jacobian null) = Some [[0]; [/ 2 ^ 70]; [0]] /\
  (JTJ <- matmul (pinv small_singular_jacobian) small_singular_jacobian ;;
   P <- broadcast2 Rminus (eye N_JOINTS) JTJ ;;
   null <- matmul P second_joint_column ;;
   matmul small_singular_jacobian null) <> Some (mzero 3 1).
Proof.
  pose proof small_singular_value as He.
  assert (H1 : (JX <- matmul small_singular_jacobian
                        (pinv small_singular_jacobian) ;;
                matmul JX small_singular_jacobian) =
               Some [[1; 0; 0; 0; 0; 0; 0]; [0; 0; 0; 0; 0; 0; 0];
                     [0; 0; 1; 0; 0; 0; 0]]).
  { rewrite pinv_small_singular_jacobian. unfold small_singular_jacobian.
    set (e := / 2 ^ 70). cbn. apply f_equal. rows_eq. }
  assert (H2 : (JTJ <- matmul (pinv small_singular_jacobian)
                         small_singular_jacobian ;;
                P <- broadcast2 Rminus (eye N_JOINTS) JTJ ;;
                null <- matmul P second_joint_column ;;
                matmul small_singular_jacobian null) =
               Some [[0]; [/ 2 ^ 70]; [0]]).
  { rewrite pinv_small_singular_jacobian.
    unfold small_singular_jacobian, second_joint_column, N_JOINTS.
    set (e := / 2 ^ 70). cbn. apply f_equal. rows_eq. }
  split; [exact small_singular_jacobian_shape |].
  split; [split; [reflexivity | repeat constructor] |].
  split; [exact H1 |]. split; [| split; [exact H2 |]].
  - rewrite H1. unfold small_singular_jacobian. intros H.
    injection H as H. lra.
  - rewrite H2. unfold mzero. cbn. intros H. injection H as H. lra.
Qed.

(** * Further properties of the driver *)

(** ** Commanding the motors *)

(** The loop over the requested values, from any index on: it succeeds when
    there is a motor for every value, and then replaces the commands of as
    many motors as there are values. *)
Lemma set_positions_from (values : list R) :
  forall done rest : list R,
    set_positions (done ++ rest) (length done) values =
    if Nat.leb (length values) (length rest)
    then Some (done ++ values ++ skipn (length values) rest)
    else None.
Proof.
  induction values as [| value values IH]; intros done rest.
  - cbn. reflexivity.
  - cbn [set_positions length].
    destruct rest as [| x rest].
    + rewrite app_nil_r, Nat.ltb_irrefl. reflexivity.
    + assert (Hlt : Nat.ltb (length done) (length (done ++ x :: rest)) = true).
      { apply Nat.ltb_lt. rewrite length_app. cbn. lia. }
      rewrite Hlt.
      rewrite firstn_app, Nat.sub_diag, firstn_all. cbn [firstn].
      rewrite app_nil_r.
      replace (skipn (S (length done)) (done ++ x :: rest)) with rest.
      * replace (done ++ value :: rest) with ((done ++ [value]) ++ rest)
          by (rewrite <- app_assoc; reflexivity).
        replace (S (length done)) with (length (done ++ [value]))
          by (rewrite length_app; cbn; lia).
        rewrite IH. cbn [length Nat.leb skipn].
        destruct (Nat.leb (length values) (length rest)); [| reflexivity].
        rewrite <- app_assoc. reflexivity.
      * rewrite skipn_app, skipn_all2 by lia.
        replace (S (length done) - length done)%nat with 1%nat by lia.
        reflexivity.
Qed.

Lemma set_positions_spec (ms values : list R) :
  set_positions ms 0 values =
  if Nat.leb (length values) (length ms)
  then Some (values ++ skipn (length values) ms)
  else None.
Proof. exact (set_positions_from values [] ms). Qed.

Lemma set_positions_length (ms values r : list R) :
  set_positions ms 0 values = Some r -> length r = length ms.
Proof.
  rewrite set_positions_spec.
  destruct (Nat.leb_spec (length values) (length ms)) as [Hle | Hgt];
    [| discriminate].
  intros H. injection H as <-.
  rewrite length_app, length_skipn. lia.
Qed.

(** X1.  Commanding [k] values to the motors succeeds exactly when there
    are at least [k] motors; the first [k] motors then hold the values and
    the others keep the position they were commanded before. *)
Theorem set_positions_prefix (ms values r : list R) :
  set_positions ms 0 values = Some r <->
  (length values <= length ms)%nat /\
  r = values ++ skipn (length values) ms.
Proof.
  rewrite set_positions_spec.
  destruct (Nat.leb_spec (length values) (length ms)) as [Hle | Hgt].
  - split.
    + intros H. injection H as <-. split; [exact Hle | reflexivity].
    + intros [_ ->]. reflexivity.
  - split; [discriminate | intros [Hle _]; lia].
Qed.

(** ** The settle delay and the initialization request *)

Lemma int_of_float_bounds (x : R) :
  0 <= x -> (0 <= int_of_float x)%Z /\
            IZR (int_of_float x) <= x < IZR (int_of_float x) + 1.
Proof.
  intros Hx. unfold int_of_float.
  destruct (Rle_dec 0 x) as [_ | Hneg]; [| lra].
  split; [apply Zfloor_lub; cbn; exact Hx | apply Zfloor_bound].
Qed.

Lemma int_of_float_nonpos (x : R) : x < 1 -> (int_of_float x <= 0)%Z.
Proof.
  intros Hx. unfold int_of_float.
  destruct (Rle_dec 0 x) as [Hpos | Hneg].
  - pose proof (Zfloor_bound x) as [Hlo _].
    apply le_IZR. cbn.
    destruct (Z_le_gt_dec (Zfloor x) 0) as [Hle | Hgt];
      [apply IZR_le; exact Hle |].
    assert (1 <= IZR (Zfloor x)) by (apply IZR_le; lia). lra.
  - pose proof (Zceil_bound x) as [Hlo _].
    apply le_IZR. cbn.
    destruct (Z_le_gt_dec (Zceil x) 0) as [Hle | Hgt];
      [apply IZR_le; exact Hle |].
    assert (1 <= IZR (Zceil x)) by (apply IZR_le; lia). lra.
Qed.

(** X2.  With a positive time step, [delay_simulation seconds] for
    [seconds >= 0] runs whole simulation steps for more than the requested
    time minus one step and for no more than the requested time; the motor
    commands, the stored twist and the gain stay as they are. *)
Theorem delay_simulation_duration (d : SnakeDriver) (seconds : R) :
  0 < basic_time_step d ->
  0 <= seconds ->
  exists k : nat,
    delay_simulation d seconds = Some (with_sim_steps d (sim_steps d + k)) /\
    1000 * seconds - basic_time_step d
    < INR k * basic_time_step d <= 1000 * seconds.
Proof.
  intros Hts Hs. unfold delay_simulation.
  destruct (Req_dec_T (basic_time_step d) 0) as [Hz | _]; [lra |].
  set (ts := basic_time_step d) in *.
  exists (Z.to_nat (int_of_float (1000 * seconds / ts))).
  split; [reflexivity |].
  assert (Hx : 0 <= 1000 * seconds / ts).
  { unfold Rdiv. apply Rmult_le_pos; [lra |].
    apply Rlt_le, Rinv_0_lt_compat. exact Hts. }
  destruct (int_of_float_bounds Hx) as (Hnn & Hlo & Hhi).
  rewrite INR_IZR_INZ, Z2Nat.id by exact Hnn.
  set (n := IZR (int_of_float (1000 * seconds / ts))) in *.
  assert (Hmul : 1000 * seconds / ts * ts = 1000 * seconds) by (field; lra).
  split.
  - assert ((n + 1) * ts > 1000 * seconds / ts * ts)
      by (apply Rmult_gt_compat_r; lra).
    lra.
  - assert (n * ts <= 1000 * seconds / ts * ts)
      by (apply Rmult_le_compat_r; lra).
    lra.
Qed.

Lemma delay_simulation_duration_witness :
  exists k : nat,
    delay_simulation sample_driver 2 =
    Some (with_sim_steps sample_driver (sim_steps sample_driver + k)) /\
    1000 * 2 - 32 < INR k * 32 <= 1000 * 2.
Proof.
  apply (@delay_simulation_duration sample_driver 2); cbn; lra.
Defined.

Lemma with_sim_steps_same (d : SnakeDriver) :
  with_sim_steps d (sim_steps d + 0) = d.
Proof.
  destruct d. unfold with_sim_steps. cbn. rewrite Nat.add_0_r. reflexivity.
Qed.

(** X3.  When the requested delay is shorter than one time step, or the
    time step is negative, [delay_simulation] runs no simulation step at
    all: with a time step above 1000 ms the one-second settle delay is
    skipped. *)
Theorem delay_simulation_skipped (d : SnakeDriver) (seconds : R) :
  basic_time_step d <> 0 ->
  1000 * seconds / basic_time_step d < 1 ->
  delay_simulation d seconds = Some d.
Proof.
  intros Hts Hx. unfold delay_simulation.
  destruct (Req_dec_T (basic_time_step d) 0) as [Hz | _]; [contradiction |].
  pose proof (int_of_float_nonpos Hx) as Hn.
  replace (Z.to_nat (int_of_float (1000 * seconds / basic_time_step d)))
    with 0%nat by lia.
  rewrite with_sim_steps_same. reflexivity.
Qed.

Lemma delay_simulation_skipped_witness :
  delay_simulation (init q_home q_home [] 2000 0 sample_robot) 1 =
  Some (init q_home q_home [] 2000 0 sample_robot).
Proof.
  apply (@delay_simulation_skipped
           (init q_home q_home [] 2000 0 sample_robot) 1);
    cbn; lra.
Defined.

(** X4.  The initialization request raises exactly when it carries more
    angles than there are motors (IndexError) or the basic time step is
    zero (ZeroDivisionError); otherwise it reports success. *)
Theorem init_joint_state_callback_failure
  (d : SnakeDriver) (joint_state : list R) :
  (init_joint_state_callback d joint_state = None <->
   (length (motors d) < length joint_state)%nat \/ basic_time_step d = 0) /\
  (forall d' resp,
     init_joint_state_callback d joint_state = Some (d', resp) ->
     success resp = true).
Proof.
  unfold init_joint_state_callback. rewrite set_positions_spec.
  destruct (Nat.leb_spec (length joint_state) (length (motors d)))
    as [Hle | Hgt]; cbn [bind].
  - unfold delay_simulation. cbn [with_motors basic_time_step].
    destruct (Req_dec_T (basic_time_step d) 0) as [Hz | Hnz]; cbn [bind].
    + split; [| discriminate].
      split; [intros _; right; exact Hz | reflexivity].
    + split.
      * split; [discriminate | intros [Hlt | Hz]; [lia | contradiction]].
      * intros d' resp H. injection H as _ <-. reflexivity.
  - split; [| discriminate].
    split; [intros _; left; exact Hgt | reflexivity].
Qed.

(** ** More on the orientation extractor *)

(** Below trace -1 the square root is taken of a negative number and all
    four results are nan. *)
Lemma quaternion_negative (r : mat3 R) :
  1 + r00 r + r11 r + r22 r < 0 ->
  rotation_matrix_to_quaternion (map_mat3 Real r) =
  [NotFinite; NotFinite; NotFinite; NotFinite].
Proof.
  intros Ht. unfold rotation_matrix_to_quaternion.
  cbn -[xdiv xsqrt]. unfold xsqrt.
  destruct (Rlt_dec (1 + r00 r + r11 r + r22 r) 0) as [_ | Hge]; [| lra].
  reflexivity.
Qed.

(** X5.  The extractor returns four finite numbers exactly when
    1 + r00 + r11 + r22 is positive, for any 3 x 3 input, rotation or not;
    at or below zero at least the three vector components are not
    finite. *)
Theorem quaternion_finite_iff (r : mat3 R) :
  (exists x y z w : R,
      rotation_matrix_to_quaternion (map_mat3 Real r) =
      [Real x; Real y; Real z; Real w]) <->
  0 < 1 + r00 r + r11 r + r22 r.
Proof.
  split.
  - intros (x & y & z & w & Hq).
    destruct (Rtotal_order (1 + r00 r + r11 r + r22 r) 0)
      as [Hneg | [Hzero | Hpos]].
    + rewrite (quaternion_negative r Hneg) in Hq. discriminate.
    + rewrite (quaternion_singular r Hzero) in Hq. discriminate.
    + exact Hpos.
  - intros Hpos. eexists _, _, _, _. apply quaternion_regular. exact Hpos.
Qed.

(** X6.  The transposed matrix, the inverse rotation when the input is a
    rotation, gives the conjugate quaternion: the same scalar part and the
    opposite vector part. *)
Theorem quaternion_of_transpose (r : mat3 R) :
  0 < 1 + r00 r + r11 r + r22 r ->
  exists x y z w : R,
    rotation_matrix_to_quaternion (map_mat3 Real r) =
    [Real x; Real y; Real z; Real w] /\
    rotation_matrix_to_quaternion (map_mat3 Real (transpose3 r)) =
    [Real (- x); Real (- y); Real (- z); Real w].
Proof.
  intros Hpos.
  assert (Hs : 0 < sqrt (1 + r00 r + r11 r + r22 r))
    by (apply sqrt_lt_R0; exact Hpos).
  eexists _, _, _, _. split; [apply quaternion_regular; exact Hpos |].
  rewrite quaternion_regular by (destruct r; cbn in *; exact Hpos).
  destruct r as [a b c d e f g h i]. cbn in *.
  repeat (apply f_equal2; [apply f_equal; field; lra |]).
  reflexivity.
Qed.

Lemma quaternion_of_transpose_witness :
  exists x y z w : R,
    rotation_matrix_to_quaternion (map_mat3 Real rot_z_90) =
    [Real x; Real y; Real z; Real w] /\
    rotation_matrix_to_quaternion (map_mat3 Real (transpose3 rot_z_90)) =
    [Real (- x); Real (- y); Real (- z); Real w].
Proof.
  apply (@quaternion_of_transpose rot_z_90). unfold rot_z_90; cbn. lra.
Defined.

(** X7.  Round trip from a quaternion: on the rotation matrix of a unit
    quaternion with positive scalar part the extractor returns that
    quaternion, and with negative scalar part its opposite, which
    represents the same rotation. *)
Theorem quaternion_round_trip (x y z w : R) :
  x * x + y * y + z * z + w * w = 1 ->
  (0 < w ->
   rotation_matrix_to_quaternion (map_mat3 Real (quaternion_rotation x y z w))
   = [Real x; Real y; Real z; Real w]) /\
  (w < 0 ->
   rotation_matrix_to_quaternion (map_mat3 Real (quaternion_rotation x y z w))
   = [Real (- x); Real (- y); Real (- z); Real (- w)]).
Proof.
  intros Hunit.
  assert (Ht : 1 + (1 - 2 * (y * y + z * z)) + (1 - 2 * (x * x + z * z))
               + (1 - 2 * (x * x + y * y)) = (2 * w) * (2 * w)) by nra.
  assert (Ht' : (2 * w) * (2 * w) = (2 * - w) * (2 * - w)) by ring.
  split; intros Hw.
  - rewrite quaternion_regular by (cbn; nra).
    cbn. rewrite Ht, sqrt_square by lra.
    repeat (apply f_equal2; [apply f_equal; field; lra |]).
    reflexivity.
  - rewrite quaternion_regular by (cbn; nra).
    cbn. rewrite Ht, Ht', sqrt_square by lra.
    repeat (apply f_equal2; [apply f_equal; field; lra |]).
    reflexivity.
Qed.

Lemma quaternion_round_trip_witness :
  rotation_matrix_to_quaternion
    (map_mat3 Real (quaternion_rotation (3 / 5) 0 0 (4 / 5))) =
  [Real (3 / 5); Real 0; Real 0; Real (4 / 5)].
Proof.
  apply (@quaternion_round_trip (3 / 5) 0 0 (4 / 5)); lra.
Defined.

(** ** Tracking and rejected commands *)

(** When the smallest singular value is above the cut-off the truncated
    inverse is the inverse of the Gram matrix. *)
Lemma truncated_inverse_full (G : mat3 R) (l1 l2 l3 : R) :
  is_spectrum G l1 l2 l3 -> rcond * sqrt l1 < sqrt l3 ->
  mul3 G (truncated_inverse G) = identity3.
Proof.
  intros Hs Hk. unfold truncated_inverse. rewrite (spectrum_eq Hs).
  destruct Hs as (H32 & H21 & _ & _ & Hd).
  destruct (Rlt_dec (rcond * sqrt l1) (sqrt l3)) as [_ | C]; [| contradiction].
  pose proof (cutoff_nonneg l1) as Hc.
  assert (P3 : 0 < l3) by (apply sqrt_pos_inv; lra).
  assert (Hdet : 0 < det3 G).
  { rewrite <- Hd. repeat apply Rmult_lt_0_compat; lra. }
  rewrite mul3_scale3_r, mul3_adj3, scale3_scale3.
  transitivity (scale3 1 identity3); [f_equal; field; lra | apply scale3_1].
Qed.

(** A Jacobian whose singular values are all above the cut-off has the
    pseudo-inverse as a right inverse. *)
Lemma pinv_right_inverse (n : nat) (A : matrix) (l1 l2 l3 : R) :
  has_shape 3 n A ->
  is_spectrum (gram3 n A) l1 l2 l3 -> rcond * sqrt l1 < sqrt l3 ->
  mmul 3 n 3 A (pinv A) = of_mat3 identity3.
Proof.
  intros HA Hs Hk. rewrite (pinv_three_rows HA), range_projector.
  rewrite (truncated_inverse_full Hs Hk). reflexivity.
Qed.

(** The Jacobian applied to the null-space velocity. *)
Lemma jacobian_null_velocity (J q0d : matrix) (l1 l2 l3 : R) (i : nat) :
  has_shape 3 N_JOINTS J ->
  is_spectrum (gram3 N_JOINTS J) l1 l2 l3 -> drops_nothing l1 l2 l3 ->
  (i < 3)%nat ->
  sum_n N_JOINTS (fun k => mget J i k * null_velocity J q0d k) = 0.
Proof.
  intros HJ Hs Hk Hi. unfold null_velocity.
  rewrite <- (mget_mmul N_JOINTS J
                (mmul N_JOINTS N_JOINTS 1 (null_projector J) q0d) Hi
                Nat.lt_0_1).
  rewrite <- mmul_assoc, (jacobian_times_projector HJ Hs Hk), mmul_zero_l.
  apply mget_mzero.
Qed.

(** The Jacobian applied to the task velocity is J J+ dx. *)
Lemma jacobian_task_velocity (J : matrix) (dx : vector) (i : nat) :
  (i < 3)%nat ->
  sum_n N_JOINTS (fun k => mget J i k * task_velocity J dx k) =
  sum_n 3 (fun j => mget (mmul 3 N_JOINTS 3 J (pinv J)) i j * vget dx j).
Proof.
  intros Hi. unfold task_velocity, mvec.
  rewrite (@sum_n_ext N_JOINTS _
             (fun k => sum_n 3 (fun j => mget J i k * mget (pinv J) k j
                                         * vget dx j))).
  2: { intros k Hk. rewrite vget_mk_vector by exact Hk.
       rewrite <- sum_n_scal_l. apply sum_n_ext. intros j _. ring. }
  rewrite sum_n_swap. apply sum_n_ext. intros j Hj.
  rewrite mget_mmul by assumption. rewrite <- sum_n_scal_r.
  reflexivity.
Qed.

(** X8.  Tracking: when every singular value of the Jacobian is above the
    cut-off of [np.linalg.pinv] ([rcond] times the largest; the squares of
    the singular values are the eigenvalues l1 >= l2 >= l3 of J J^T), the
    joint displacement the resolver computes before clamping is mapped by
    the Jacobian to dx dt exactly, whatever the gain and the posture
    gradient; and when no component of the candidate is outside the
    actuation range, this candidate is what the resolver returns. *)
Theorem resolver_tracks_command_above_cutoff
  (robot : Robot) (q dx : vector) (k0 dt l1 l2 l3 : R) :
  well_formed robot q dx k0 ->
  is_spectrum (gram3 N_JOINTS (jacobian robot q)) l1 l2 l3 ->
  rcond * sqrt l1 < sqrt l3 ->
  exists cand out : vector,
    joint_candidate robot q dx k0 dt = Some cand /\
    update_joint_position robot q dx k0 dt = Some out /\
    (forall i, (i < 3)%nat ->
       sum_n N_JOINTS (fun k =>
         mget (jacobian robot q) i k * (vget cand k - vget q k))
       = vget dx i * dt) /\
    ((forall k, (k < N_JOINTS)%nat -> in_range (vget cand k)) -> out = cand).
Proof.
  intros Hwf Hs Hkept.
  pose proof Hwf as (Hq & Hdx & HJ & Hq0).
  pose proof Hs as (H32 & H21 & _).
  pose proof (smallest_kept_drops_nothing H32 H21 Hkept) as Hk.
  eexists _, _.
  split; [apply (joint_candidate_eq dt Hwf) |].
  split; [apply (update_joint_position_eq dt Hwf) |].
  set (J := jacobian robot q) in *. set (q0d := q0dot robot q k0) in *.
  split.
  - intros i Hi.
    rewrite (@sum_n_ext N_JOINTS _
               (fun k => (mget J i k * task_velocity J dx k
                          + mget J i k * null_velocity J q0d k) * dt)).
    2: { intros k Hk'. rewrite vget_mk_vector by exact Hk'.
         unfold joint_velocity. ring. }
    rewrite sum_n_scal_r, sum_n_plus.
    rewrite (jacobian_null_velocity q0d HJ Hs Hk Hi).
    rewrite (jacobian_task_velocity J dx Hi).
    rewrite (pinv_right_inverse HJ Hs Hkept).
    destruct i as [| [| [| i]]]; [| | | lia];
      cbn [sum_n mget of_mat3 nth identity3 r00 r01 r02 r10 r11 r12
           r20 r21 r22]; ring.
  - intros Hin. apply mk_vector_ext. intros k Hk'.
    apply clip1_inside.
    specialize (Hin k Hk'). rewrite vget_mk_vector in Hin by exact Hk'.
    exact Hin.
Qed.

Lemma resolver_tracks_command_above_cutoff_witness :
  exists cand : vector,
    joint_candidate sample_robot q_home dx_sample 1 dt_default = Some cand /\
    forall i, (i < 3)%nat ->
      sum_n N_JOINTS (fun k =>
        mget unit_jacobian i k * (vget cand k - vget q_home k))
      = vget dx_sample i * dt_default.
Proof.
  destruct (@resolver_tracks_command_above_cutoff sample_robot q_home
              dx_sample 1 dt_default 1 1 1
              (@sample_well_formed q_home dx_sample 1 eq_refl eq_refl)
              unit_jacobian_spectrum unit_jacobian_kept)
    as (cand & out & Hcand & _ & Htrack & _).
  exists cand. split; [exact Hcand | exact Htrack].
Defined.

(** X9.  A velocity command that does not have three components makes the
    resolver raise (the product of the N x 3 pseudo-inverse with it is
    refused), whatever the other inputs. *)
Theorem resolver_rejects_command_length
  (robot : Robot) (q dx : vector) (k0 dt : R) :
  has_shape 3 N_JOINTS (jacobian robot q) ->
  length dx <> 3%nat ->
  update_joint_position robot q dx k0 dt = None.
Proof.
  intros HJ Hdx. unfold update_joint_position, joint_candidate.
  assert (HX : has_shape N_JOINTS 3 (pinv (jacobian robot q)))
    by (apply pinv_shape; [exact HJ | lia]).
  unfold matvec.
  rewrite (has_shape_ncols HX) by (unfold N_JOINTS; lia).
  destruct (Nat.eqb_spec 3 (length dx)) as [Heq | _];
    [symmetry in Heq; contradiction | reflexivity].
Qed.

Lemma resolver_rejects_command_length_witness :
  update_joint_position sample_robot q_home [1; 2] 0 dt_default = None.
Proof.
  apply (@resolver_rejects_command_length sample_robot q_home [1; 2] 0
           dt_default unit_jacobian_shape).
  cbn. lia.
Defined.

(** ** The control cycle *)

(** Whatever the resolver returns lies in the actuation range, and has N
    entries when the joint vector has. *)
Lemma update_joint_position_range
  (robot : Robot) (q dx : vector) (k0 dt : R) (out : vector) :
  update_joint_position robot q dx k0 dt = Some out ->
  Forall in_range out /\ (length q = N_JOINTS -> length out = N_JOINTS).
Proof.
  unfold update_joint_position.
  destruct (joint_candidate robot q dx k0 dt) as [c |] eqn:Hc;
    [| discriminate].
  cbn [bind]. intros H. injection H as <-. split.
  - unfold clip. apply Forall_forall. intros x Hx.
    apply in_map_iff in Hx. destruct Hx as (y & <- & _).
    rewrite RAD_120_eq. apply clip1_bounds. pose proof PI_RGT_0. lra.
  - intros Hq. unfold clip. rewrite length_map.
    unfold joint_candidate in Hc.
    destruct (matvec _ dx) as [task |]; [| discriminate].
    cbn [bind] in Hc.
    destruct (matmul _ _) as [JTJ |]; [| discriminate].
    cbn [bind] in Hc.
    destruct (broadcast2 Rminus _ _) as [P |]; [| discriminate].
    cbn [bind] in Hc.
    destruct (matmul P _) as [null |]; [| discriminate].
    cbn [bind] in Hc.
    destruct (broadcast2 Rplus _ _) as [dq |]; [| discriminate].
    cbn [bind] in Hc.
    unfold broadcast1 in Hc. rewrite Hq in Hc. unfold bdim in Hc.
    destruct (Nat.eqb N_JOINTS (length _)) eqn:E1.
    + injection Hc as <-. apply length_mk_vector.
    + cbn [N_JOINTS Nat.eqb] in Hc.
      destruct (Nat.eqb (length _) 1); [| discriminate].
      injection Hc as <-. apply length_mk_vector.
Qed.

(** The callbacks leave the number of motors as it is. *)
Lemma spin_once_motors (d d1 : SnakeDriver) (ev : option Event) :
  spin_once d ev = Some d1 -> length (motors d1) = length (motors d).
Proof.
  destruct ev as [[msg | data | js] |]; cbn [spin_once].
  - intros H. injection H as <-. reflexivity.
  - intros H. injection H as <-. reflexivity.
  - unfold init_joint_state_callback.
    destruct (set_positions (motors d) 0 js) as [ms |] eqn:Hset;
      [| discriminate].
    cbn [bind]. unfold delay_simulation.
    cbn [with_motors basic_time_step sim_steps].
    destruct (Req_dec_T (basic_time_step d) 0); [discriminate |].
    cbn [bind fst]. intros H. injection H as <-.
    cbn [with_sim_steps with_motors motors].
    apply (set_positions_length _ _ Hset).
  - intros H. injection H as <-. reflexivity.
Qed.

Lemma get_end_effector_pose_none (d : SnakeDriver) :
  get_end_effector_pose d = None <-> length (end_eff d) <> 16%nat.
Proof.
  unfold get_end_effector_pose.
  destruct (end_eff d) as [| p00 [| p01 [| p02 [| p03 [| p10 [| p11 [| p12
    [| p13 [| p20 [| p21 [| p22 [| p23 [| p30 [| p31 [| p32 [| p33 [| ? ?]
    ]]]]]]]]]]]]]]]]; cbn [length];
    (split; [intros H; try discriminate H; lia | intros H; try reflexivity;
                                                  exfalso; lia]).
Qed.

(** X10.  After every control cycle that completes, on a driver with its N
    motors, every motor holds a command inside [-2 pi / 3, 2 pi / 3]:
    whatever was commanded before, by an initialization request of that
    same cycle too, is replaced by the resolver's clamped result. *)
Theorem step_commands_in_range
  (d d' : SnakeDriver) (ev : option Event) :
  length (motors d) = N_JOINTS ->
  step d ev = Some d' ->
  length (motors d') = N_JOINTS /\ Forall in_range (motors d').
Proof.
  intros Hm. unfold step.
  destruct (spin_once d ev) as [d1 |] eqn:Hspin; [| discriminate].
  cbn [bind]. pose proof (spin_once_motors _ _ Hspin) as Hm1.
  unfold read_sensors.
  destruct (Nat.leb_spec N_JOINTS (length (sensors d1))) as [Hs | Hs];
    [| discriminate].
  cbn [bind].
  destruct (update_joint_position _ _ _ _ _) as [target |] eqn:Hup;
    [| discriminate].
  cbn [bind].
  destruct (update_joint_position_range _ _ _ _ _ Hup) as (Hrange & Hlen).
  specialize (Hlen ltac:(rewrite length_firstn; lia)).
  rewrite set_positions_spec, Hlen, Hm1, Hm, Nat.leb_refl. cbn [bind].
  rewrite skipn_all2 by lia. rewrite app_nil_r.
  destruct (get_end_effector_pose _) as [pose |]; [| discriminate].
  cbn [bind]. intros H. injection H as <-.
  cbn [with_published with_motors motors].
  split; [exact Hlen | exact Hrange].
Qed.

Lemma step_commands_in_range_witness :
  exists d' : SnakeDriver,
    step sample_driver (Some (TwistMsg twist_a)) = Some d' /\
    Forall in_range (motors d').
Proof.
  destruct (@step_twist_commands sample_driver twist_a eq_refl eq_refl
              eq_refl
              (@sample_well_formed q_home [1 / 100; 0; 0] 0 eq_refl eq_refl))
    as (d' & out & Hstep & _ & _).
  exists d'. split; [exact Hstep |].
  exact (proj2 (@step_commands_in_range sample_driver d'
                  (Some (TwistMsg twist_a)) eq_refl Hstep)).
Defined.

(** X11.  A control cycle that receives nothing, on a driver whose
    kinematic model is well formed for the sensor readings, raises exactly
    when a position sensor is missing, a motor is missing, or the end
    effector's pose does not have sixteen numbers. *)
Theorem step_failure (d : SnakeDriver) :
  ((N_JOINTS <= length (sensors d))%nat ->
   well_formed (robot d) (firstn N_JOINTS (sensors d))
     [vx (linear (target_twist d)); vy (linear (target_twist d));
      vz (linear (target_twist d))] (gain d)) ->
  step d None = None <->
  (length (sensors d) < N_JOINTS)%nat \/
  (length (motors d) < N_JOINTS)%nat \/
  length (end_eff d) <> 16%nat.
Proof.
  intros Hwf. unfold step. cbn [spin_once bind]. unfold read_sensors.
  destruct (Nat.leb_spec N_JOINTS (length (sensors d))) as [Hs | Hs].
  2: { cbn [bind]. split; [intros _; left; exact Hs | reflexivity]. }
  cbn [bind]. rewrite (update_joint_position_eq dt_default (Hwf Hs)).
  cbn [bind]. rewrite set_positions_spec, length_mk_vector.
  destruct (Nat.leb_spec N_JOINTS (length (motors d))) as [Hm | Hm].
  2: { cbn [bind]. split; [intros _; right; left; exact Hm | reflexivity]. }
  cbn [bind].
  destruct (get_end_effector_pose (with_motors d _)) as [pose |] eqn:Hpose.
  - cbn [bind]. split; [discriminate |].
    intros [Hlt | [Hlt | Hne]]; [lia | lia |].
    exfalso.
    assert (Hnone : get_end_effector_pose (with_motors d
                      (mk_vector N_JOINTS (fun i =>
                         clip1 (- (2 * PI / 3)) (2 * PI / 3)
                           (vget (firstn N_JOINTS (sensors d)) i
                            + joint_velocity
                                (jacobian (robot d)
                                   (firstn N_JOINTS (sensors d)))
                                (q0dot (robot d)
                                   (firstn N_JOINTS (sensors d)) (gain d))
                                [vx (linear (target_twist d));
                                 vy (linear (target_twist d));
                                 vz (linear (target_twist d))] i
                              * dt_default))
                       ++ skipn N_JOINTS (motors d))) = None)
      by (apply get_end_effector_pose_none; exact Hne).
    rewrite Hnone in Hpose. discriminate.
  - cbn [bind]. split; [| reflexivity].
    intros _. right. right.
    apply get_end_effector_pose_none in Hpose. exact Hpose.
Qed.

Lemma step_failure_witness :
  step (init q_home q_home [] 32 0 sample_robot) None = None.
Proof.
  apply (@step_failure (init q_home q_home [] 32 0 sample_robot)).
  - intros _. apply sample_well_formed; reflexivity.
  - right. right. cbn. lia.
Defined.

(** X12.  Holding position: on a driver just initialized, with its N motors
    and N sensors reading positions inside the actuation range, a pose of
    sixteen numbers and a kinematic model that returns a 3 x N Jacobian
    and the zero column at gain 0, the first control cycle, nothing having
    been received, commands each motor to the position its sensor reads. *)
Theorem first_cycle_holds_position
  (motor_positions sensor_values pose : list R) (time_step : R)
  (steps : nat) (model : Robot) :
  length motor_positions = N_JOINTS ->
  length sensor_values = N_JOINTS ->
  length pose = 16%nat ->
  Forall in_range sensor_values ->
  has_shape 3 N_JOINTS (jacobian model sensor_values) ->
  q0dot model sensor_values 0 = mzero N_JOINTS 1 ->
  exists d' : SnakeDriver,
    step (init motor_positions sensor_values pose time_step steps model) None
    = Some d' /\
    motors d' = sensor_values.
Proof.
  intros Hm Hs Hp Hrange HJ Hzero.
  set (d0 := init motor_positions sensor_values pose time_step steps model).
  assert (Hwf : well_formed (robot d0) (sensors d0)
                  [vx (linear (target_twist d0));
                   vy (linear (target_twist d0));
                   vz (linear (target_twist d0))] (gain d0)).
  { split; [exact Hs |]. split; [reflexivity |]. split; [exact HJ |].
    cbn [d0 init robot sensors gain]. rewrite Hzero.
    apply (has_shape_mk_matrix N_JOINTS 1). }
  destruct (@step_twist_commands d0 (target_twist d0) Hm Hs Hp Hwf)
    as (d' & out & Hstep & Hout & Hmotors).
  exists d'. split; [exact Hstep |].
  rewrite Hmotors.
  rewrite (update_joint_position_eq dt_default Hwf) in Hout.
  injection Hout as <-.
  etransitivity; [| symmetry; exact (vector_eta sensor_values Hs)].
  apply mk_vector_ext. intros i Hi.
  cbn [d0 init robot sensors gain target_twist linear vx vy vz].
  unfold joint_velocity.
  rewrite Hzero, null_velocity_zero, task_velocity_zero by exact Hi.
  replace (vget sensor_values i + (0 + 0) * dt_default)
    with (vget sensor_values i) by lra.
  apply clip1_inside.
  rewrite Forall_forall in Hrange. apply Hrange.
  unfold vget. apply nth_In. lia.
Qed.

Lemma first_cycle_holds_position_witness :
  exists d' : SnakeDriver,
    step (init q_home q_home (end_eff sample_driver) 32 0 sample_robot) None
    = Some d' /\
    motors d' = q_home.
Proof.
  apply (@first_cycle_holds_position q_home q_home (end_eff sample_driver)
           32 0 sample_robot eq_refl eq_refl eq_refl).
  - apply Forall_forall. intros x Hx. unfold in_range.
    pose proof PI_RGT_0.
    repeat (destruct Hx as [<- | Hx]; [lra |]). destruct Hx.
  - exact unit_jacobian_shape.
  - apply sample_q0dot_zero.
Defined.
